(** * gh-licenses: the license aggregation pipeline

    A shallow embedding of [main.go] (latest revision): the reference
    extractor [getGithubRepos], the license resolver [getGithubLicense], the
    file scanner [getLicensesFromFile], the tree walker [getLicenses] /
    [getLicensesFromDir] and the merge engine [mergeMaps] / [appendUnique],
    together with the properties the specification states about them. *)

From Stdlib Require Import Ascii String.
From stdpp Require Import gmap strings list fin_maps.

Local Open Scope list_scope.

(** ** Data model *)

(** [type License struct { Key, Name, URL string }]: a comparable struct, used
    as a map key. *)
Record License := mkLicense { Key : string; Name : string; URL : string }.

#[global] Instance License_eq_dec : EqDecision License.
Proof. solve_decision. Defined.

#[global] Instance License_countable : Countable License.
Proof.
  apply (inj_countable' (fun l => (Key l, Name l, URL l))
                        (fun t => mkLicense t.1.1 t.1.2 t.2)).
  by intros [].
Defined.

(** [License{}], the zero value. *)
Definition zeroLicense : License := mkLicense "" "" "".

(** A Go [[]string] by value: [None] is the nil slice, [Some l] a non-nil
    slice holding [l] (possibly of length 0). *)
Abbreviation slice := (option (list string)).

(** A Go [map[License][]string]: [None] is the nil map. *)
Abbreviation index := (gmap License slice).
Abbreviation gomap := (option (gmap License slice)).

(** [range s] over a slice: the elements in order; nothing for nil. *)
Definition elems (s : slice) : list string := default [] s.

(** [append(s, x)] by value: the result is never nil. *)
Definition append (s : slice) (x : string) : slice := Some (elems s ++ [x]).

(** [s == nil]. *)
Definition isNil (s : slice) : bool :=
  match s with None => true | Some _ => false end.

(** [m[k]]: the zero value (the nil slice) when the key is missing. *)
Definition at_key (m : index) (k : License) : slice := default None (m !! k).

(** ** Merge engine *)

Module Merge.

(** The inner loop of [appendUnique]: scan [currentStrings] for [newString],
    leaving the loop at the first hit. *)
Fixpoint found (currentStrings : list string) (newString : string) : bool :=
  match currentStrings with
  | [] => false
  | currentString :: rest =>
      if decide (newString = currentString) then true
      else found rest newString
  end.

(** [func appendUnique(currentStrings []string, newStrings ...string) []string] *)
Definition appendUnique (currentStrings newStrings : slice) : slice :=
  let newArrStrings : slice := foldl append None (elems currentStrings) in
  foldl (fun newArrStrings newString =>
           if found (elems currentStrings) newString then newArrStrings
           else append newArrStrings newString)
        newArrStrings (elems newStrings).

(** Body of [for key, val := range map1 { merged[key] = val }]. *)
Definition copy_step (merged : index) (kv : License * slice) : index :=
  <[kv.1 := kv.2]> merged.

(** Body of the second loop, [for key, val := range map2 { ... }]. *)
Definition merge_step (map2 : index) (merged : index) (kv : License * slice)
  : index :=
  let '(key, val) := kv in
  if isNil (at_key merged key) then <[key := val]> merged
  else <[key := appendUnique (at_key merged key) (at_key map2 key)]> merged.

(** The two loops, for given iteration orders of [map1] and [map2] (Go leaves
    the order of [range] over a map unspecified). *)
Definition merge_loops (order1 order2 : list (License * slice)) (map2 : index)
  : index :=
  let merged := foldl copy_step ∅ order1 in
  foldl (merge_step map2) merged order2.

(** [func mergeMaps(map1, map2 map[License][]string) map[License][]string] *)
Definition mergeMaps (map1 map2 : gomap) : gomap :=
  match map1, map2 with
  | None, None => Some ∅
  | None, Some _ => map2
  | Some _, None => map1
  | Some m1, Some m2 =>
      Some (merge_loops (map_to_list m1) (map_to_list m2) m2)
  end.

(** What a License Index holds, representation aside: for each license the
    list of its repositories ([nil] map: no license). *)
Definition view (m : gomap) : gmap License (list string) :=
  elems <$> default ∅ m.

(** The repositories of a license as a set. *)
Definition content (m : gomap) : gmap License (gset string) :=
  list_to_set <$> view m.

(** [v] followed by the elements of [w] that do not occur in [v]. *)
Definition add_new (v w : list string) : list string :=
  v ++ filter (fun x => x ∉ v) w.

(** The slot of one key after both loops. *)
Definition merge_slot (o1 o2 : option slice) : option slice :=
  match o2 with
  | None => o1
  | Some w =>
      match o1 with
      | Some (Some v) => Some (appendUnique (Some v) w)
      | _ => Some w
      end
  end.

End Merge.

(** ** Reference extractor *)

Module Extract.

(** The Perl class [\s] of Go's regexp syntax: tab, newline, form feed,
    carriage return and space. *)
Definition isSpace (c : ascii) : bool :=
  match c with
  | "009" | "010" | "012" | "013" | " " => true
  | _ => false
  end%char.

(** [Some rest] when [s] is [p] followed by [rest]. *)
Fixpoint stripPrefix (p s : string) : option string :=
  match p, s with
  | EmptyString, _ => Some s
  | String a p', String b s' =>
      if decide (a = b) then stripPrefix p' s' else None
  | String _ _, EmptyString => None
  end.

(** The greedy class repetition: the longest prefix free of [\s]. *)
Fixpoint takeNonSpace (s : string) : string :=
  match s with
  | EmptyString => EmptyString
  | String c s' =>
      if isSpace c then EmptyString else String c (takeNonSpace s')
  end.

(** The pattern [github\.com[^\s]+] anchored at the start of [s]: the match,
    if there is one. The repetition needs one character at least. *)
Definition matchHere (s : string) : option string :=
  match stripPrefix "github.com" s with
  | Some rest =>
      match takeNonSpace rest with
      | EmptyString => None
      | w => Some ("github.com" +:+ w)
      end
  | None => None
  end.

(** [regex.FindAllString(text, -1)]: successive leftmost matches; the search
    for the next one starts where the previous match ended ([skip] counts the
    characters of the current match still to be passed over). *)
Fixpoint scan (skip : nat) (s : string) : list string :=
  match s with
  | EmptyString => []
  | String _ s' =>
      match skip with
      | S k => scan k s'
      | O =>
          match matchHere s with
          | Some m => m :: scan (String.length m - 1) s'
          | None => scan 0 s'
          end
      end
  end.

Definition FindAllString (text : string) : list string := scan 0 text.

End Extract.

(** An [error] value, by its message. *)
Abbreviation error := string (only parsing).

(** [func getGithubRepos(text string) ([]string, error)]: the pattern is a
    constant that compiles, so the error is always nil. *)
Definition getGithubRepos (text : string) : list string * option error :=
  (Extract.FindAllString text, None).

(** [func stripNewline(text string) string]: drops a final newline. *)
Fixpoint stripNewline (text : string) : string :=
  match text with
  | EmptyString => EmptyString
  | String c EmptyString =>
      if decide (c = "010"%char) then EmptyString else text
  | String c rest => String c (stripNewline rest)
  end.

(** [s[n:]]: [None] stands for the run-time panic when [n > len(s)]. *)
Fixpoint sliceFrom (n : nat) (s : string) : option string :=
  match n with
  | O => Some s
  | S n' =>
      match s with
      | EmptyString => None
      | String _ s' => sliceFrom n' s'
      end
  end.

(** Sample licenses and maps. *)
Definition mit : License :=
  mkLicense "mit" "MIT License" "https://api.github.com/licenses/mit".
Definition apache : License :=
  mkLicense "apache-2.0" "Apache License 2.0"
            "https://api.github.com/licenses/apache-2.0".

Definition one_repo : index := {[ mit := Some ["github.com/foo/bar"] ]}.
Definition two_repos : index :=
  {[ mit := Some ["github.com/baz/qux"; "github.com/foo/bar"];
     apache := Some ["github.com/a/b"] ]}.

(** ** The program in its environment *)

(** An [*http.Request] as far as the program sets it. *)
Record request := mkRequest {
  method : string;
  url : string;
  authorization : option string   (* the Authorization header, if set *)
}.

(** What the program does to the outside: text on standard output, and
    requests handed to [client.Do]. *)
Inductive event :=
| Stdout (text : string)
| HttpDo (req : request).

(** What the operating system answers below a path. *)
#[warnings="-register-all"]
Inductive fsnode :=
| StatError (err : error)        (* os.Stat fails *)
| Unopenable (err : error)       (* a file that os.Open refuses *)
| RegularFile (lines : list string)  (* the tokens bufio.Scanner yields *)
| Unlistable (err : error)       (* a directory that ioutil.ReadDir refuses *)
| Directory (entries : list (string * fsnode)).

(** The library calls of the program: environment, HTTP client, JSON decoder
    and path joining. *)
Class Env := {
  world : Type;
  (** [os.Getenv("GITHUB_AUTH_TOKEN")] *)
  authToken : world → string;
  (** whether [http.NewRequest("GET", url, nil)] returns a request *)
  validURL : string → bool;
  (** [client.Do(req)] followed by [ioutil.ReadAll(resp.Body)]: a transport
      error, or the bytes read *)
  clientDo : request → world → (error + string) * world;
  (** [json.Unmarshal(data, &repoResp)]: an error, or [repoResp.RepoLicense] *)
  jsonUnmarshal : string → error + License;
  (** [filepath.Join(dir, name)] *)
  filepathJoin : string → string → string
}.

Module Run.

(** How a call ends: normally, with a value and the new state of the world,
    or in a run-time panic; either way with what it emitted so far. *)
Inductive outcome (W A : Type) :=
| Returned (a : A) (w : W) (out : list event)
| Panicked (out : list event).
Arguments Returned {W A} a w out.
Arguments Panicked {W A} out.

Section Program.
Context `{E : Env}.

Definition M (A : Type) : Type := world → outcome world A.

Definition ret {A} (a : A) : M A := fun w => Returned a w [].

Definition bind {A B} (m : M A) (k : A → M B) : M B := fun w =>
  match m w with
  | Returned a w' out =>
      match k a w' with
      | Returned b w'' out' => Returned b w'' (out ++ out')
      | Panicked out' => Panicked (out ++ out')
      end
  | Panicked out => Panicked out
  end.

Definition emit (e : event) : M unit := fun w => Returned tt w [e].
Definition panic {A} : M A := fun _ => Panicked [].
Definition Printf (text : string) : M unit := emit (Stdout text).

Local Notation "'do' x <- m ; k" := (bind m (fun x => k))
  (at level 10, x name, m at level 100, k at level 200).
Local Notation "'exec' m ; k" := (bind m (fun _ => k))
  (at level 10, m at level 100, k at level 200).

(** [for _, x := range l { acc = body(acc, x) }] *)
Fixpoint forRange {A S} (body : S → A → M S) (l : list A) (acc : S) : M S :=
  match l with
  | [] => ret acc
  | x :: l' => do acc' <- body acc x; forRange body l' acc'
  end.

Definition newline : string := String "010"%char EmptyString.

Definition githubAPIURL : string := "https://api.github.com".

(** [func getGithubLicense(repo string) (License, error)] *)
Definition getGithubLicense (repo : string) : M (License * option error) :=
  match sliceFrom (String.length "github.com/") repo with
  | None => panic
  | Some ownerProj =>
      let target := githubAPIURL +:+ "/repos/" +:+ ownerProj in
      (* the error of http.NewRequest is dropped; on failure [req] is nil and
         the first use of it below panics *)
      if validURL target then
        fun w =>
          let header :=
            if decide (authToken w = "") then None
            else Some ("token " +:+ authToken w) in
          let req := mkRequest "GET" target header in
          (exec emit (HttpDo req);
           do resp <- (fun w => let '(r, w') := clientDo req w in
                                Returned r w' []);
           match resp with
           | inl err => ret (zeroLicense, Some err)
           | inr data =>
               match jsonUnmarshal data with
               | inl err => ret (zeroLicense, Some err)
               | inr repoLicense => ret (repoLicense, None)
               end
           end) w
      else panic
  end.

(** The body of [for _, repo := range repos] in [getLicensesFromFile]. *)
Definition scanRepo (licenses : index) (repo : string) : M index :=
  do result <- getGithubLicense repo;
  let '(license, err) := result in
  exec match err with
       | Some e => Printf ("Error getting license info " +:+ e +:+ newline)
       | None => ret tt
       end;
  ret (<[license := append (at_key licenses license) repo]> licenses).

(** The body of [for scanner.Scan()]. *)
Definition scanLine (licenses : index) (text : string) : M index :=
  let line := stripNewline text in
  let '(repos, err) := getGithubRepos line in
  exec match err with
       | Some e => Printf ("Error getting github repos " +:+ e +:+ newline)
       | None => ret tt
       end;
  forRange scanRepo repos licenses.

(** [func getLicensesFromFile(filename string) map[License][]string]; [file]
    is what [os.Open(filename)] gives. When it fails, the nil file yields no
    line. *)
Definition getLicensesFromFile (filename : string) (file : error + list string)
  : M gomap :=
  let licenses : index := ∅ in
  do lines <-
    match file with
    | inl err =>
        exec Printf ("Error opening file " +:+ "go.mod" +:+ ". Error: "
                     +:+ err +:+ newline);
        ret []
    | inr lines => ret lines
    end;
  do licenses <- forRange scanLine lines licenses;
  ret (Some licenses).

(** [func getLicensesFromDir(dir string) map[License][]string]; [listing] is
    what [ioutil.ReadDir(dir)] gives, [walk] the recursive call of
    [getLicenses]. *)
Definition getLicensesFromDir {N} (walk : string → N → M gomap) (dir : string)
    (listing : error + list (string * N)) : M gomap :=
  match listing with
  | inl err =>
      exec Printf ("Error reading the directory " +:+ dir +:+ ". Error was "
                 +:+ err +:+ newline);
      ret None
  | inr files =>
      forRange
        (fun licenses file =>
           do newLicenses <- walk (filepathJoin dir file.1) file.2;
           ret (Merge.mergeMaps licenses newLicenses))
        files None
  end.

(** [func getLicenses(filename string) map[License][]string], with
    [isDir] inlined: [node] is what the file system holds at [filename]. *)
Fixpoint getLicenses (filename : string) (node : fsnode) : M gomap :=
  match node with
  | StatError err =>
      exec Printf ("Error checking if " +:+ filename
                 +:+ " is a directory. Error was " +:+ err +:+ newline);
      ret None
  | Unopenable err =>
      do newLicenses <- getLicensesFromFile filename (inl err);
      ret (Merge.mergeMaps None newLicenses)
  | RegularFile lines =>
      do newLicenses <- getLicensesFromFile filename (inr lines);
      ret (Merge.mergeMaps None newLicenses)
  | Unlistable err =>
      do newLicenses <- getLicensesFromDir getLicenses filename (inl err);
      ret (Merge.mergeMaps None newLicenses)
  | Directory entries =>
      do newLicenses <- getLicensesFromDir getLicenses filename (inr entries);
      ret (Merge.mergeMaps None newLicenses)
  end.

(** The loop of [main] over the arguments; [fs] is the file system. *)
Definition walkArgs (fs : string → fsnode) (args : list string) : M gomap :=
  forRange
    (fun licenses filename =>
       do newLicenses <- getLicenses filename (fs filename);
       ret (Merge.mergeMaps licenses newLicenses))
    args None.

(** [func (license *License) print()] *)
Definition print (license : License) : M unit :=
  Printf ("Name: " +:+ Name license +:+ " | Key: " +:+ Key license
          +:+ " | URL: " +:+ URL license +:+ newline).

(** [func printArr(prompt string, arr []string)] *)
Definition printArr (prompt : string) (arr : list string) : M unit :=
  exec Printf (prompt +:+ ": ");
  match arr with
  | [] => Printf newline
  | _ =>
      exec forRange (fun _ a => Printf (a +:+ ", ")) (removelast arr) tt;
      Printf (List.last arr "" +:+ newline)
  end.

(** [func prettyPrintLicenses(licenses map[License][]string)], the licenses
    in the order [range] yields them. *)
Definition prettyPrintLicenses (licenses : gomap) : M unit :=
  forRange
    (fun _ entry =>
       exec print entry.1;
       exec printArr "Repos" (elems entry.2);
       Printf newline)
    (map_to_list (default ∅ licenses)) tt.

(** [func main()]: [args] is [os.Args[1:]]; the value is the exit status. *)
Definition main (fs : string → fsnode) (args : list string) : M nat :=
  match args with
  | [] =>
      exec Printf ("At least one filename must be supplied as an argument"
                   +:+ newline);
      ret 1
  | _ =>
      do licenses <- walkArgs fs args;
      exec prettyPrintLicenses licenses;
      ret 0
  end.

End Program.
End Run.

(** ** A sample environment *)

Module Demo.

(** A network that knows the license of two repositories and cannot reach
    any other; the state of the world counts the requests made. *)
Definition demoDo (req : request) (served : nat) : (error + string) * nat :=
  if decide (url req = "https://api.github.com/repos/octocat/Hello-World")
  then (inr "mit", S served)
  else if decide (url req = "https://api.github.com/repos/foo/bar")
  then (inr "mit", S served)
  else (inl "dial tcp: no route to host", S served).

Definition demoUnmarshal (data : string) : error + License :=
  if decide (data = "mit") then inr mit
  else inl "unexpected end of JSON input".

#[export] Instance env : Env := {|
  world := nat;
  authToken := fun _ => "";
  validURL := fun _ => true;
  clientDo := demoDo;
  jsonUnmarshal := demoUnmarshal;
  filepathJoin := fun dir name => dir +:+ "/" +:+ name
|}.

(** A directory with a file and a sub-directory; the sub-directory holds an
    entry that [os.Stat] fails for, and a file. *)
Definition nested : fsnode :=
  Directory
    [("sub", Directory
               [("bad", StatError "lstat top/sub/bad: permission denied");
                ("go.mod", RegularFile ["require github.com/foo/bar v1"])]);
     ("deps.txt", RegularFile ["github.com/octocat/Hello-World"])].

End Demo.

(** The same network behind an [http.NewRequest] that refuses, as the
    library's does, a URL with a control character in it. *)

Module Strict.

Definition isControl (c : ascii) : bool :=
  (nat_of_ascii c <? 32)%nat || (nat_of_ascii c =? 127)%nat.

Fixpoint hasControl (s : string) : bool :=
  match s with
  | EmptyString => false
  | String c rest => isControl c || hasControl rest
  end.

Definition env : Env := {|
  world := nat;
  authToken := fun _ => "";
  validURL := fun target => negb (hasControl target);
  clientDo := Demo.demoDo;
  jsonUnmarshal := Demo.demoUnmarshal;
  filepathJoin := fun dir name => dir +:+ "/" +:+ name
|}.

(** A reference with the byte 127 in it. *)
Definition odd_reference : string :=
  "github.com/a" +:+ String "127"%char "b".

End Strict.

(** ** The merge engine on the heap

    Maps and the arrays behind slices are objects that several variables may
    share. To see what [mergeMaps] writes to, the same code once more, with
    the objects in a store. *)

Module Heap.

Abbreviation loc := positive.

(** A slice value: nil, or an array with the number of cells in use. Every
    slice of the program is made by [append] from the nil slice, so it
    starts at the first cell of its array, and its capacity is the size of
    the array. *)
Inductive hslice :=
| Nil
| Slice (arr : loc) (len : nat).

(** The store: arrays of strings, and maps from licenses to slices. *)
Record heap := mkHeap {
  arrays : gmap loc (list string);
  maps : gmap loc (gmap License hslice)
}.

Definition len (s : hslice) : nat :=
  match s with Nil => 0 | Slice _ n => n end.

Definition cells (h : heap) (a : loc) : list string :=
  default [] (arrays h !! a).

(** [s[i]] *)
Definition load (h : heap) (s : hslice) (i : nat) : string :=
  match s with
  | Nil => ""
  | Slice a _ => default "" (cells h a !! i)
  end.

(** The strings of a slice, in order. *)
Definition contents (h : heap) (s : hslice) : list string :=
  match s with
  | Nil => []
  | Slice a n => take n (cells h a)
  end.

Definition isNil (s : hslice) : bool :=
  match s with Nil => true | Slice _ _ => false end.

Section Growth.
(** How many spare cells the run time adds when it allocates an array for
    [n] strings; Go leaves this to the implementation. *)
Context (spare : nat → nat).

(** [append(s, x)]: into the next cell of the array when there is one, else
    into a new array that gets the strings of [s] first. *)
Definition append (s : hslice) (x : string) (h : heap) : hslice * heap :=
  let grow :=
    let a' := fresh (dom (arrays h)) in
    (Slice a' (S (len s)),
     mkHeap (<[a' := contents h s ++ x :: replicate (spare (S (len s))) ""]>
               (arrays h))
            (maps h)) in
  match s with
  | Nil => grow
  | Slice a n =>
      if decide (n < length (cells h a))
      then (Slice a (S n),
            mkHeap (<[a := <[n := x]> (cells h a)]> (arrays h)) (maps h))
      else grow
  end.

(** The inner loop of [appendUnique], over the indices of
    [currentStrings]. *)
Fixpoint found (h : heap) (currentStrings : hslice) (indices : list nat)
    (newString : string) : bool :=
  match indices with
  | [] => false
  | i :: rest =>
      if decide (newString = load h currentStrings i) then true
      else found h currentStrings rest newString
  end.

(** [func appendUnique(currentStrings []string, newStrings ...string) []string] *)
Definition appendUnique (currentStrings newStrings : hslice) (h : heap)
  : hslice * heap :=
  let copied :=
    foldl (fun st i => append st.1 (load st.2 currentStrings i) st.2)
          (Nil, h) (seq 0 (len currentStrings)) in
  foldl (fun st j =>
           let newString := load st.2 newStrings j in
           if found st.2 currentStrings (seq 0 (len currentStrings)) newString
           then st
           else append st.1 newString st.2)
        copied (seq 0 (len newStrings)).

(** The map at [p]. *)
Definition map_at (h : heap) (p : loc) : gmap License hslice :=
  default ∅ (maps h !! p).

(** [m[key]] *)
Definition map_get (h : heap) (p : loc) (key : License) : hslice :=
  default Nil (map_at h p !! key).

(** [m[key] = val] *)
Definition map_set (p : loc) (key : License) (val : hslice) (h : heap)
  : heap :=
  mkHeap (arrays h) (<[p := <[key := val]> (map_at h p)]> (maps h)).

(** [make(map[License][]string)] *)
Definition make (h : heap) : loc * heap :=
  let p := fresh (dom (maps h)) in
  (p, mkHeap (arrays h) (<[p := ∅]> (maps h))).

(** The body of the second loop of [mergeMaps]. *)
Definition merge_step (merged map2 : loc) (h : heap)
    (kv : License * hslice) : heap :=
  let '(key, val) := kv in
  if isNil (map_get h merged key) then map_set merged key val h
  else
    let st := appendUnique (map_get h merged key) (map_get h map2 key) h in
    map_set merged key st.1 st.2.

(** [func mergeMaps(map1, map2 map[License][]string) map[License][]string];
    a map value is the place of its object, [None] the nil map. *)
Definition mergeMaps (map1 map2 : option loc) (h : heap)
  : option loc * heap :=
  match map1, map2 with
  | None, None => let st := make h in (Some st.1, st.2)
  | None, Some _ => (map2, h)
  | Some _, None => (map1, h)
  | Some p1, Some p2 =>
      let st := make h in
      let merged := st.1 in
      let h1 :=
        foldl (fun h kv => map_set merged kv.1 kv.2 h) st.2
              (map_to_list (map_at st.2 p1)) in
      let h2 :=
        foldl (merge_step merged p2) h1 (map_to_list (map_at h1 p2)) in
      (Some merged, h2)
  end.

End Growth.

(** Everything in [h] is in [h'], unchanged. *)
Definition preserved (h h' : heap) : Prop :=
  arrays h ⊆ arrays h' ∧ maps h ⊆ maps h'.

(** What was readable in [h] reads the same in [h']: the maps, key by key,
    and the strings of the slices. *)
Definition reads_alike (h h' : heap) : Prop :=
  (∀ p, is_Some (maps h !! p) → map_at h' p = map_at h p)
  ∧ (∀ a n, is_Some (arrays h !! a) →
            contents h' (Slice a n) = contents h (Slice a n)).

(** The slice is nil or sits in an array that [h0] does not hold. *)
Definition local_to (h0 : heap) (s : hslice) : Prop :=
  match s with
  | Nil => True
  | Slice a _ => arrays h0 !! a = None
  end.

(** What the loops of [appendUnique] keep: the slice under construction is
    not of [h0], and [h0] is still there. *)
Definition building (h0 : heap) (st : hslice * heap) : Prop :=
  local_to h0 st.1 ∧ arrays h0 ⊆ arrays st.2 ∧ maps st.2 = maps h0.

(** A slice of the store by value. *)
Definition to_slice (h : heap) (s : hslice) : option (list string) :=
  match s with
  | Nil => None
  | Slice _ _ => Some (contents h s)
  end.

(** The map at [p] by value. *)
Definition snap (h : heap) (p : loc) : gmap License (option (list string)) :=
  to_slice h <$> map_at h p.

(** The slice is nil, or its array is in the store and has the cells the
    slice uses. *)
Definition slice_ok (h : heap) (s : hslice) : Prop :=
  match s with
  | Nil => True
  | Slice a n => ∃ cs, arrays h !! a = Some cs ∧ n ≤ length cs
  end.

(** Every slice of every map of the store is in order. *)
Definition heap_ok (h : heap) : Prop :=
  ∀ p m k s, maps h !! p = Some m → m !! k = Some s → slice_ok h s.

(** The slice under construction is in order, besides what [building]
    says. *)
Definition step_inv (h : heap) (st : hslice * heap) : Prop :=
  building h st ∧ slice_ok st.2 st.1.

(** A map value by value: [None] for the nil map. *)
Definition snap_opt (h : heap) (p : option loc)
  : option (gmap License (option (list string))) :=
  snap h <$> p.

(** The map value is nil or the place of a map of the store. *)
Definition allocated (h : heap) (p : option loc) : Prop :=
  match p with
  | None => True
  | Some p => is_Some (maps h !! p)
  end.

(** What the loops of [mergeMaps] keep, [h0] being the store at the call,
    [merged] the new map and [mv] its value. *)
Definition merging (h0 : heap) (merged : loc)
    (mv : gmap License (option (list string))) (h : heap) : Prop :=
  maps h0 !! merged = None
  ∧ preserved h0 h ∧ heap_ok h ∧ snap h merged = mv.

(** [r] is a map that [h] does not hold yet. *)
Definition freshly_built (h : heap) (r : option loc) : Prop :=
  ∃ p, r = Some p ∧ maps h !! p = None.

(** A run time that doubles. *)
Definition doubling (n : nat) : nat := n.

(** A store with one array and one map. *)
Definition sample : heap :=
  mkHeap {[ 1%positive := ["github.com/foo/bar"] ]}
         {[ 1%positive := {[ mit := Slice 1 1 ]} ]}.

End Heap.

(** ** Statements about the merge engine *)



(** ** Statements about the extractor *)

Module ExtractSpec.
Import Extract.

(** What the greedy repetition leaves: [s] without its longest prefix free of
    white space. *)
Fixpoint dropNonSpace (s : string) : string :=
  match s with
  | EmptyString => EmptyString
  | String c s' => if isSpace c then s else dropNonSpace s'
  end.

Fixpoint allNonSpace (w : string) : bool :=
  match w with
  | EmptyString => true
  | String c w' => negb (isSpace c) && allNonSpace w'
  end.

(** [s] is empty or begins with white space: a run of other characters
    cannot be continued into [s]. *)
Definition stops (s : string) : Prop :=
  match s with
  | EmptyString => True
  | String c _ => isSpace c = true
  end.

(** A reference begins at the first character of [s]: the literal, and a
    character after it that is no white space. *)
Definition startsRef (s : string) : Prop :=
  ∃ c rest, s = "github.com" +:+ String c rest ∧ isSpace c = false.

(** The references of a line as the specification words them: the substrings
    that begin with the literal and run through the characters that are no
    white space, none overlapping another, from left to right. *)
Inductive Extracts : string → list string → Prop :=
| Extracts_none s :
    (∀ pre post, s = pre +:+ post → ¬ startsRef post) →
    Extracts s []
| Extracts_next pre w post refs :
    (∀ p1 p2, pre = p1 +:+ p2 → p2 ≠ EmptyString →
              ¬ startsRef (p2 +:+ "github.com" +:+ w +:+ post)) →
    w ≠ EmptyString → allNonSpace w = true → stops post →
    Extracts post refs →
    Extracts (pre +:+ "github.com" +:+ w +:+ post) (("github.com" +:+ w) :: refs).

End ExtractSpec.

(** ** Statements about the walker *)

Module WalkSpec.
Import Run.

Section WithEnv.
Context `{E : Env}.

(** The line [getLicenses] prints when [os.Stat] fails. *)
Definition statDiag (filename err : string) : event :=
  Stdout ("Error checking if " +:+ filename +:+ " is a directory. Error was "
          +:+ err +:+ newline).

(** The line [getLicensesFromDir] prints when [ioutil.ReadDir] fails. *)
Definition dirDiag (dir err : string) : event :=
  Stdout ("Error reading the directory " +:+ dir +:+ ". Error was "
          +:+ err +:+ newline).

(** [node], found at [path], cannot be queried or listed, and [e] is the
    diagnostic printed for it. *)
Definition failing (path : string) (node : fsnode) (e : event) : Prop :=
  match node with
  | StatError err => e = statDiag path err
  | Unlistable err => e = dirDiag path err
  | _ => False
  end.

(** The body shared by the loops of [main] and [getLicensesFromDir]:
    [newLicenses := f(x); licenses = mergeMaps(licenses, newLicenses)]. *)
Definition step {A} (f : A → M gomap) (licenses : gomap) (x : A) : M gomap :=
  bind (f x) (fun newLicenses => ret (Merge.mergeMaps licenses newLicenses)).

(** Two runs end alike: the same output, the same state of the world and
    indexes that list the same repositories under the same licenses. *)
Definition agree (o1 o2 : outcome world gomap) : Prop :=
  match o1, o2 with
  | Returned r1 w1 t1, Returned r2 w2 t2 =>
      Merge.view r1 = Merge.view r2 ∧ w1 = w2 ∧ t1 = t2
  | Panicked t1, Panicked t2 => t1 = t2
  | _, _ => False
  end.

(** [t2] is [t1] with [e] put in at some place. *)
Definition inserted (e : event) (t1 t2 : list event) : Prop :=
  ∃ before after, t1 = before ++ after ∧ t2 = before ++ e :: after.

(** The second run differs from the first by the one line [e] only: it
    returns when the first does, with the same licenses and repositories and
    the same state of the world; when the first run panics the second panics
    too, at the same point. *)
Definition same_but (e : event) (o1 o2 : outcome world gomap) : Prop :=
  match o1, o2 with
  | Returned r1 w1 t1, Returned r2 w2 t2 =>
      Merge.view r1 = Merge.view r2 ∧ w1 = w2 ∧ inserted e t1 t2
  | Panicked t1, Panicked t2 => t1 = t2 ∨ inserted e t1 t2
  | _, _ => False
  end.

(** [os.Stat] fails for the path, or it is a directory that [ioutil.ReadDir]
    refuses. *)
Definition failed (node : fsnode) : bool :=
  match node with
  | StatError _ | Unlistable _ => true
  | _ => false
  end.

(** The tree below a path without its failing paths, at any depth. *)
Fixpoint prune (node : fsnode) : fsnode :=
  match node with
  | Directory entries =>
      Directory
        (omap (fun file : string * fsnode =>
                 if failed file.2 then None else Some (file.1, prune file.2))
              entries)
  | _ => node
  end.

(** The lines printed for the failing paths at and below [path], in the
    order of the walk. *)
Fixpoint failures (path : string) (node : fsnode) : list event :=
  match node with
  | StatError err => [statDiag path err]
  | Unlistable err => [dirDiag path err]
  | Directory entries =>
      concat ((fun file : string * fsnode =>
                 failures (filepathJoin path file.1) file.2) <$> entries)
  | Unopenable _ | RegularFile _ => []
  end.

(** The arguments of the program that do not fail. *)
Definition walkable (fs : string → fsnode) (args : list string)
  : list string :=
  filter (fun filename => failed (fs filename) = false) args.

(** The lines printed for the failing paths at and below the arguments. *)
Definition arg_failures (fs : string → fsnode) (args : list string)
  : list event :=
  concat ((fun filename => failures filename (fs filename)) <$> args).

(** [t] is made of the events of [t1] and the lines of [d], each in their
    order. *)
Inductive interleaved : list event → list event → list event → Prop :=
| interleaved_nil : interleaved [] [] []
| interleaved_event e t1 d t :
    interleaved t1 d t → interleaved (e :: t1) d (e :: t)
| interleaved_line e t1 d t :
    interleaved t1 d t → interleaved t1 (e :: d) (e :: t).

(** The second run differs from the first by the lines [d] only: it returns
    when the first does, with the same licenses and repositories and the same
    state of the world, having printed all of [d] besides; it panics only
    when the first does, at the same point, having printed the first lines
    of [d] besides. *)
Definition same_but_for (d : list event) (o1 o2 : outcome world gomap)
  : Prop :=
  match o1, o2 with
  | Returned r1 w1 t1, Returned r2 w2 t2 =>
      Merge.view r1 = Merge.view r2 ∧ w1 = w2 ∧ interleaved t1 d t2
  | Panicked t1, Panicked t2 =>
      ∃ d', d' `prefix_of` d ∧ interleaved t1 d' t2
  | _, _ => False
  end.

End WithEnv.
End WalkSpec.

(** ** Statements about the scanner and the reporter *)

Module ScanSpec.
Import Run.

(** The requests among the events, in order. *)
Definition requests (out : list event) : list request :=
  omap (fun e => match e with HttpDo req => Some req | Stdout _ => None end)
       out.

(** What was written to standard output, in one string. *)
Definition stdout_text (out : list event) : string :=
  foldr (fun e rest =>
           match e with Stdout text => text +:+ rest | HttpDo _ => rest end)
        "" out.

(** The references of the lines of a file, in the order the scanner meets
    them. *)
Definition references (lines : list string) : list string :=
  concat ((fun text => (getGithubRepos (stripNewline text)).1) <$> lines).

(** The URL asked for a reference. *)
Definition target (repo : string) : string :=
  githubAPIURL +:+ "/repos/"
  +:+ default "" (sliceFrom (String.length "github.com/") repo).

(** All repositories of an index, license after license. *)
Definition all_repos (m : index) : list string :=
  concat ((fun kv : License * slice => elems kv.2) <$> map_to_list m).

(** [strings.Join(l, sep)] *)
Fixpoint join (sep : string) (l : list string) : string :=
  match l with
  | [] => ""
  | [x] => x
  | x :: rest => x +:+ sep +:+ join sep rest
  end.

(** The lines of the report for one license. *)
Definition block (entry : License * slice) : string :=
  "Name: " +:+ Name entry.1 +:+ " | Key: " +:+ Key entry.1
  +:+ " | URL: " +:+ URL entry.1 +:+ newline
  +:+ "Repos: " +:+ join ", " (elems entry.2) +:+ newline
  +:+ newline.

(** The report: the blocks of the licenses, in the order [range] yields
    them. *)
Definition report (licenses : gomap) : string :=
  foldr (fun entry rest => block entry +:+ rest) ""
        (map_to_list (default ∅ licenses)).

(** The line [main] prints when it has no argument. *)
Definition usage : event :=
  Stdout ("At least one filename must be supplied as an argument"
          +:+ newline).

(** The line [getLicensesFromFile] prints when [os.Open] fails. *)
Definition openDiag (err : string) : event :=
  Stdout ("Error opening file " +:+ "go.mod" +:+ ". Error: " +:+ err
          +:+ newline).

Section WithEnv.
Context `{E : Env}.

(** What one call of the resolver can be: a panic before anything is sent,
    or one request and an answer. *)
Definition resolver_outcome (repo : string) (w : world)
    (o : outcome world (License * option string)) : Prop :=
  match o with
  | Panicked out =>
      out = []
      ∧ (sliceFrom (String.length "github.com/") repo = None
         ∨ validURL (target repo) = false)
  | Returned result w' out =>
      (result.2 ≠ None → result.1 = zeroLicense)
      ∧ ∃ req, out = [HttpDo req]
               ∧ method req = "GET" ∧ url req = target repo
               ∧ (authorization req = None ↔ authToken w = "")
  end.

(** Every list of the index names a repository. *)
Definition lists_nonempty (m : index) : Prop :=
  ∀ k v, m !! k = Some v → elems v ≠ [].

(** What scanning the references [refs] into the index [m0] can be: a
    panic, at a reference whose URL cannot be made into a request; or an
    index that holds what [m0] held and each of [refs] once more, after one
    request for each of [refs], in their order. *)
Definition filed (m0 : index) (refs : list string)
    (o : outcome world index) : Prop :=
  match o with
  | Panicked out => ∃ repo, repo ∈ refs ∧ validURL (target repo) = false
  | Returned m w' out =>
      all_repos m ≡ₚ all_repos m0 ++ refs
      ∧ url <$> requests out = target <$> refs
      ∧ (lists_nonempty m0 → lists_nonempty m)
  end.

End WithEnv.
End ScanSpec.

(** * Properties *)

Section MergeFacts.
Import Merge.

Lemma found_spec cur x : found cur x = bool_decide (x ∈ cur).
Proof.
  induction cur as [|c cur IH]; cbn [found].
  - symmetry. rewrite bool_decide_eq_false. by intros ?%elem_of_nil.
  - destruct (decide (x = c)) as [->|Hne].
    + symmetry. rewrite bool_decide_eq_true. left.
    + rewrite IH. apply bool_decide_ext. rewrite elem_of_cons. tauto.
Qed.

Lemma elems_foldl_append s l : elems (foldl append s l) = elems s ++ l.
Proof.
  revert s. induction l as [|x l IH]; intros s; simpl.
  - by rewrite app_nil_r.
  - rewrite IH. unfold append. simpl. by rewrite <- app_assoc.
Qed.

Lemma elems_foldl_new cur s l :
  elems (foldl (fun acc x => if found cur x then acc else append acc x) s l)
  = elems s ++ filter (fun x => x ∉ cur) l.
Proof.
  revert s. induction l as [|x l IH]; intros s; simpl.
  - by rewrite app_nil_r.
  - rewrite IH, found_spec. case_bool_decide as Hx.
    + rewrite filter_cons_False; [done | by intros []].
    + rewrite filter_cons_True by done. unfold append. simpl.
      by rewrite <- app_assoc.
Qed.

Lemma elems_appendUnique v w :
  elems (appendUnique v w) = add_new (elems v) (elems w).
Proof.
  unfold appendUnique, add_new.
  by rewrite elems_foldl_new, elems_foldl_append.
Qed.

(** The first loop copies its entries whatever their order. *)
Lemma copy_loop_lookup (order : list (License * slice)) (acc : index) k :
  NoDup order.*1 →
  foldl copy_step acc order !! k
  = match (list_to_map order : index) !! k with
    | Some v => Some v
    | None => acc !! k
    end.
Proof.
  revert acc. induction order as [|[k' v] order IH]; intros acc Hnd; simpl.
  - by rewrite lookup_empty.
  - apply NoDup_cons in Hnd as [Hk' Hnd]. rewrite IH by done.
    unfold copy_step; simpl. destruct (decide (k' = k)) as [->|Hne].
    + rewrite !lookup_insert_eq.
      by rewrite (not_elem_of_list_to_map_1 (M := gmap License)).
    + rewrite !lookup_insert_ne by done. done.
Qed.

Lemma copy_loop_perm (m1 : index) order :
  order ≡ₚ map_to_list m1 → foldl copy_step ∅ order = m1.
Proof.
  intros Hp. apply map_eq; intros k.
  rewrite copy_loop_lookup.
  - rewrite <- (list_to_map_flip m1 order) by done.
    rewrite lookup_empty. by destruct (m1 !! k).
  - rewrite Hp. apply NoDup_fst_map_to_list.
Qed.

(** The second loop touches, for each entry, the slot of its key only. *)
Lemma merge_loop_lookup (map2 : index) order (acc : index) k :
  NoDup order.*1 →
  (∀ k' v, (k', v) ∈ order → map2 !! k' = Some v) →
  foldl (merge_step map2) acc order !! k
  = merge_slot (acc !! k) ((list_to_map order : index) !! k).
Proof.
  revert acc. induction order as [|[k' v] order IH]; intros acc Hnd Hin; simpl.
  - rewrite lookup_empty. done.
  - apply NoDup_cons in Hnd as [Hk' Hnd].
    rewrite IH; [|done|intros ???; apply Hin; by right].
    assert (at_key map2 k' = v) as Hv.
    { unfold at_key. rewrite (Hin k' v); [done | left]. }
    destruct (decide (k' = k)) as [->|Hne].
    + rewrite lookup_insert_eq.
      rewrite (not_elem_of_list_to_map_1 (M := gmap License)) by done.
      unfold merge_slot, at_key; simpl.
      destruct (acc !! k) as [[u|]|] eqn:Hacc; simpl;
        rewrite ?lookup_insert_eq; try done.
      unfold at_key in Hv. by rewrite Hv.
    + rewrite lookup_insert_ne by done. f_equal.
      destruct (isNil (at_key acc k')); by rewrite lookup_insert_ne.
Qed.

(** Both loops, for any iteration orders: slot by slot. *)
Lemma merge_loops_lookup (m1 m2 : index) order1 order2 k :
  order1 ≡ₚ map_to_list m1 → order2 ≡ₚ map_to_list m2 →
  merge_loops order1 order2 m2 !! k = merge_slot (m1 !! k) (m2 !! k).
Proof.
  intros H1 H2. unfold merge_loops.
  rewrite merge_loop_lookup.
  - rewrite (copy_loop_perm m1) by done.
    by rewrite <- (list_to_map_flip m2 order2).
  - rewrite H2. apply NoDup_fst_map_to_list.
  - intros k' v Hin. rewrite H2 in Hin. by apply elem_of_map_to_list.
Qed.

(** The iteration order of [range] does not influence the merged map. *)
Lemma merge_loops_order (m1 m2 : index) order1 order2 :
  order1 ≡ₚ map_to_list m1 → order2 ≡ₚ map_to_list m2 →
  merge_loops order1 order2 m2
  = merge_loops (map_to_list m1) (map_to_list m2) m2.
Proof.
  intros H1 H2. apply map_eq; intros k.
  rewrite (merge_loops_lookup m1 m2 order1 order2) by done.
  by rewrite (merge_loops_lookup m1 m2).
Qed.


Lemma add_new_nil_l w : add_new [] w = w.
Proof.
  unfold add_new; simpl. induction w as [|x w IH]; [done|].
  rewrite filter_cons_True; [by rewrite IH | by intros ?%elem_of_nil].
Qed.

(** [mergeMaps] on views: a license of both maps gets the list of the first
    followed by what the second adds; any other license keeps its list. *)
Lemma view_mergeMaps (a b : gomap) :
  view (mergeMaps a b)
  = union_with (fun v w => Some (add_new v w)) (view a) (view b).
Proof.
  destruct a as [m1|], b as [m2|]; unfold view; simpl.
  - apply map_eq; intros k.
    rewrite lookup_union_with, !lookup_fmap.
    rewrite (merge_loops_lookup m1 m2) by done.
    destruct (m1 !! k) as [[v|]|], (m2 !! k) as [w|]; simpl;
      rewrite ?elems_appendUnique, ?add_new_nil_l; done.
  - rewrite fmap_empty. by rewrite (right_id_L ∅ (union_with _)).
  - rewrite fmap_empty. by rewrite (left_id_L ∅ (union_with _)).
  - rewrite fmap_empty. by rewrite (left_id_L ∅ (union_with _)).
Qed.

Lemma elem_of_add_new v w x : x ∈ add_new v w ↔ x ∈ v ∨ x ∈ w.
Proof.
  unfold add_new. rewrite elem_of_app, list_elem_of_filter.
  destruct (decide (x ∈ v)); tauto.
Qed.

Lemma NoDup_add_new v w : NoDup v → NoDup w → NoDup (add_new v w).
Proof.
  intros Hv Hw. unfold add_new. apply NoDup_app. split_and!; [done| |].
  - intros x Hx [Hnx _]%list_elem_of_filter. done.
  - by apply NoDup_filter.
Qed.

Lemma content_mergeMaps (a b : gomap) :
  content (mergeMaps a b)
  = union_with (fun s t => Some (s ∪ t)) (content a) (content b).
Proof.
  unfold content. rewrite view_mergeMaps. apply map_eq; intros k.
  rewrite lookup_fmap, !lookup_union_with, !lookup_fmap.
  destruct (view a !! k) as [v|], (view b !! k) as [w|]; simpl; try done.
  f_equal. apply set_eq; intros x.
  rewrite elem_of_union, !elem_of_list_to_set. apply elem_of_add_new.
Qed.




(** C4. The nil map is neutral for [mergeMaps]: two nil maps give the empty
    map, and merging a map with the nil map, on either side, returns that
    map. *)
Theorem mergeMaps_nil_neutral :
  Merge.mergeMaps None None = Some ∅
  ∧ ∀ X : index,
      Merge.mergeMaps None (Some X) = Some X
      ∧ Merge.mergeMaps (Some X) None = Some X.
Proof. split; [reflexivity | intros X; split; reflexivity]. Qed.

(** C5. As a mapping from licenses to sets of repositories, [mergeMaps] is
    commutative and associative, for all maps, nil or not. *)
Theorem mergeMaps_comm_assoc (A B C : gomap) :
  content (mergeMaps A B) = content (mergeMaps B A)
  ∧ content (mergeMaps (mergeMaps A B) C)
    = content (mergeMaps A (mergeMaps B C)).
Proof.
  rewrite !content_mergeMaps. split; apply map_eq; intros k;
    rewrite !lookup_union_with;
    destruct (content A !! k), (content B !! k), (content C !! k);
    simpl; f_equal; set_solver.
Qed.

End MergeFacts.

Section ExtractFacts.
Import Extract ExtractSpec.

Lemma str_app_cons c (a b : string) : String c a +:+ b = String c (a +:+ b).
Proof. reflexivity. Qed.

Lemma str_app_nil_l (b : string) : "" +:+ b = b.
Proof. reflexivity. Qed.

Ltac str_simpl := rewrite ?str_app_cons, ?str_app_nil_l in *.

Lemma str_app_assoc (a b c : string) : (a +:+ b) +:+ c = a +:+ (b +:+ c).
Proof. induction a as [|x a IH]; str_simpl; [done | by rewrite IH]. Qed.

Lemma str_app_nil_r (a : string) : a +:+ "" = a.
Proof. induction a as [|x a IH]; str_simpl; [done | by rewrite IH]. Qed.

Lemma str_length_app (a b : string) :
  String.length (a +:+ b) = String.length a + String.length b.
Proof. induction a as [|x a IH]; str_simpl; simpl; [done | by rewrite IH]. Qed.

Lemma stripPrefix_spec p s rest : stripPrefix p s = Some rest ↔ s = p +:+ rest.
Proof.
  revert s. induction p as [|a p IH]; intros s; str_simpl; simpl.
  - split; congruence.
  - destruct s as [|b s]; [split; congruence|].
    destruct (decide (a = b)) as [->|Hne].
    + rewrite IH. split; congruence.
    + split; congruence.
Qed.

Lemma take_drop_NonSpace s : s = takeNonSpace s +:+ dropNonSpace s.
Proof.
  induction s as [|c s IH]; simpl; [done|].
  destruct (isSpace c); str_simpl; congruence.
Qed.

Lemma allNonSpace_take s : allNonSpace (takeNonSpace s) = true.
Proof.
  induction s as [|c s IH]; simpl; [done|].
  destruct (isSpace c) eqn:Hc; simpl; [done|]. by rewrite Hc.
Qed.

Lemma stops_drop s : stops (dropNonSpace s).
Proof.
  induction s as [|c s IH]; simpl; [done|].
  by destruct (isSpace c) eqn:Hc.
Qed.

Lemma takeNonSpace_app w post :
  allNonSpace w = true → stops post → takeNonSpace (w +:+ post) = w.
Proof.
  intros Hw Hp. induction w as [|c w IH]; str_simpl; simpl in *.
  - destruct post as [|c post]; simpl in *; [done | by rewrite Hp].
  - apply andb_prop in Hw as [Hc Hw]. apply negb_true_iff in Hc.
    rewrite Hc. by rewrite IH.
Qed.

(** A match at the start of [s]: its shape, and what follows it. *)
Lemma matchHere_Some s m :
  matchHere s = Some m ↔
  ∃ w post, m = "github.com" +:+ w ∧ s = m +:+ post
            ∧ w ≠ EmptyString ∧ allNonSpace w = true ∧ stops post.
Proof.
  unfold matchHere. split.
  - destruct (stripPrefix "github.com" s) as [rest|] eqn:Hs; [|done].
    apply stripPrefix_spec in Hs.
    destruct (takeNonSpace rest) as [|c w] eqn:Hw; [done|].
    intros [= <-]. exists (String c w), (dropNonSpace rest).
    split_and!; [done | | done | | apply stops_drop].
    + rewrite Hs, str_app_assoc, <- Hw. f_equal. apply take_drop_NonSpace.
    + rewrite <- Hw. apply allNonSpace_take.
  - intros (w & post & -> & -> & Hne & Hw & Hp).
    rewrite str_app_assoc.
    rewrite (proj2 (stripPrefix_spec "github.com" _ (w +:+ post)) eq_refl).
    rewrite takeNonSpace_app by done. by destruct w.
Qed.

Lemma matchHere_startsRef s : startsRef s ↔ is_Some (matchHere s).
Proof.
  split.
  - intros (c & rest & -> & Hc). unfold matchHere.
    rewrite (proj2 (stripPrefix_spec "github.com" _ (String c rest)) eq_refl).
    simpl takeNonSpace. rewrite Hc. by eexists.
  - intros [m (w & post & -> & -> & Hne & Hw & Hp)%matchHere_Some].
    destruct w as [|c w]; [done|]. simpl in Hw.
    apply andb_prop in Hw as [Hc _]. apply negb_true_iff in Hc.
    exists c, (w +:+ post). by rewrite str_app_assoc.
Qed.

(** Passing over the rest of a match. *)
Lemma scan_skip u rest : scan (String.length u) (u +:+ rest) = scan 0 rest.
Proof.
  induction u as [|c u IH]; str_simpl; simpl; [by destruct rest | done].
Qed.

Lemma scan_match m post :
  matchHere (m +:+ post) = Some m →
  scan 0 (m +:+ post) = m :: scan 0 post.
Proof.
  intros Hm. destruct m as [|c m].
  { apply matchHere_Some in Hm as (w & ? & [=] & _). }
  str_simpl. cbn [scan]. rewrite Hm. f_equal.
  replace (String.length (String c m) - 1) with (String.length m)
    by (simpl; lia).
  apply scan_skip.
Qed.

Lemma scan_no_match c s :
  ¬ startsRef (String c s) → scan 0 (String c s) = scan 0 s.
Proof.
  intros Hn. cbn [scan]. destruct (matchHere (String c s)) eqn:Hm; [|done].
  destruct Hn. apply matchHere_startsRef. by eexists.
Qed.

Lemma not_startsRef_nil : ¬ startsRef "".
Proof. by intros (c & rest & [=] & _). Qed.

Lemma scan_none s :
  (∀ pre post, s = pre +:+ post → ¬ startsRef post) → scan 0 s = [].
Proof.
  induction s as [|c s IH]; intros Hno; [done|].
  rewrite scan_no_match by (by apply (Hno "")).
  apply IH. intros pre post ->. by apply (Hno (String c pre)).
Qed.

Lemma scan_next pre w post :
  (∀ p1 p2, pre = p1 +:+ p2 → p2 ≠ EmptyString →
            ¬ startsRef (p2 +:+ "github.com" +:+ w +:+ post)) →
  w ≠ EmptyString → allNonSpace w = true → stops post →
  scan 0 (pre +:+ "github.com" +:+ w +:+ post)
  = ("github.com" +:+ w) :: scan 0 post.
Proof.
  intros Hleft Hne Hw Hp. induction pre as [|c pre IH].
  - rewrite str_app_nil_l, <- str_app_assoc. apply scan_match.
    apply matchHere_Some. by exists w, post.
  - rewrite str_app_cons, scan_no_match.
    + apply IH. intros p1 p2 ->. by apply (Hleft (String c p1)).
    + rewrite <- str_app_cons. by apply (Hleft "").
Qed.

(** The relation determines the result of the search. *)
Lemma Extracts_scan s refs : Extracts s refs → scan 0 s = refs.
Proof.
  induction 1 as [s Hno | pre w post refs Hleft Hne Hw Hp _ IH].
  - by apply scan_none.
  - rewrite scan_next by done. by rewrite IH.
Qed.

Lemma Extracts_skip_char c s refs :
  ¬ startsRef (String c s) → Extracts s refs → Extracts (String c s) refs.
Proof.
  intros Hc H. revert Hc.
  destruct H as [s Hno | pre w post refs Hleft Hne Hw Hp Hrest]; intros Hc.
  - apply Extracts_none. intros [|c' pre] post Heq; str_simpl.
    + by subst.
    + injection Heq as <- ->. by apply (Hno pre).
  - rewrite <- str_app_cons. apply Extracts_next; try done.
    intros [|c' p1] p2 Heq Hp2; str_simpl.
    + by subst.
    + injection Heq as <- ->. by apply (Hleft p1 p2).
Qed.

(** The search finds what the relation describes. *)
Lemma scan_Extracts s : Extracts s (scan 0 s).
Proof.
  remember (String.length s) as n eqn:Hn.
  revert s Hn. induction (lt_wf n) as [n _ IH]; intros s ->.
  destruct s as [|c s]; [apply Extracts_none|].
  { intros [|??] post Heq; str_simpl; [subst post | discriminate].
    apply not_startsRef_nil. }
  destruct (matchHere (String c s)) as [m|] eqn:Hm.
  - pose proof Hm as (w & post & -> & Hs & Hne & Hw & Hp)%matchHere_Some.
    rewrite Hs in Hm |- *. rewrite scan_match by done.
    rewrite str_app_assoc, <- (str_app_nil_l ("github.com" +:+ w +:+ post)).
    apply Extracts_next; try done.
    + intros [|??] p2 Heq Hp2; str_simpl; [by subst p2 | discriminate].
    + eapply IH; [|done]. rewrite Hs, !str_length_app. simpl. lia.
  - rewrite scan_no_match.
    + apply Extracts_skip_char.
      * intros [m Hm']%matchHere_startsRef. congruence.
      * eapply IH; [|done]. simpl. lia.
    + intros [m Hm']%matchHere_startsRef. congruence.
Qed.

(** C6. [getGithubRepos] returns, without an error, exactly the references of
    the line: the substrings that begin with ["github.com"] and run through
    the following characters that are no white space (one at least), none
    overlapping another, from left to right; none when no reference begins
    anywhere in the line; and the two references of the sample line. *)
Theorem getGithubRepos_extracts (line : string) :
  (∀ refs, Extracts line refs ↔ (getGithubRepos line).1 = refs)
  ∧ (getGithubRepos line).2 = None
  ∧ ((∀ pre post, line = pre +:+ post → ¬ startsRef post) →
     (getGithubRepos line).1 = [])
  ∧ getGithubRepos "see github.com/foo/bar and github.com/baz/qux more text"
    = (["github.com/foo/bar"; "github.com/baz/qux"], None).
Proof.
  split_and!; [| done | apply scan_none | reflexivity].
  intros refs. split; [apply Extracts_scan | intros <-; apply scan_Extracts].
Qed.

Lemma scan_elem k s m :
  m ∈ scan k s → ∃ c w, m = "github.com" +:+ String c w.
Proof.
  revert k. induction s as [|c s IH]; intros k; cbn [scan].
  { by intros ?%elem_of_nil. }
  destruct k as [|k]; [|by apply IH].
  destruct (matchHere (String c s)) as [m'|] eqn:Hm; [|by apply IH].
  intros [->|Hin]%elem_of_cons; [|by eapply IH].
  apply matchHere_Some in Hm as (w & post & -> & _ & Hne & _).
  destruct w as [|c' w]; [done|]. by exists c', w.
Qed.

(** C9. Every reference the extractor returns has at least the eleven
    characters of ["github.com/"], so the slice [repo[len("github.com/"):]]
    at the start of [getGithubLicense] is within bounds. *)
Theorem extracted_reference_length (line : string) :
  Forall (fun repo =>
            String.length "github.com/" ≤ String.length repo
            ∧ is_Some (sliceFrom (String.length "github.com/") repo))
         (getGithubRepos line).1.
Proof.
  apply Forall_forall. intros repo (c & w & ->)%scan_elem.
  rewrite str_length_app. simpl. split; [lia | by eexists].
Qed.

End ExtractFacts.

Section WalkFacts.
Import Merge Run WalkSpec.
Context `{E : Env}.

Lemma view_mergeMaps_empty_r (a r : gomap) :
  view r = ∅ → view (mergeMaps a r) = view a.
Proof.
  intros Hr. rewrite view_mergeMaps, Hr. apply (right_id_L ∅ (union_with _)).
Qed.

Lemma view_mergeMaps_nil_l (r : gomap) : view (mergeMaps None r) = view r.
Proof. by destruct r. Qed.

Lemma agree_refl o : agree o o.
Proof. by destruct o. Qed.

Lemma inserted_app out e t1 t2 :
  inserted e t1 t2 → inserted e (out ++ t1) (out ++ t2).
Proof.
  intros (a & b & -> & ->). exists (out ++ a), b. by rewrite !app_assoc.
Qed.

Lemma forRange_cons {A S} (body : S → A → M S) x l acc w :
  forRange body (x :: l) acc w
  = match body acc x w with
    | Returned a w' out =>
        match forRange body l a w' with
        | Returned b w'' out' => Returned b w'' (out ++ out')
        | Panicked out' => Panicked (out ++ out')
        end
    | Panicked out => Panicked out
    end.
Proof. reflexivity. Qed.

Lemma step_eq {A} (f : A → M gomap) acc x w :
  step f acc x w
  = match f x w with
    | Returned n w' out => Returned (mergeMaps acc n) w' out
    | Panicked out => Panicked out
    end.
Proof.
  unfold step, bind. destruct (f x w); simpl; [|done]. by rewrite app_nil_r.
Qed.

Section Loop.
Context {A : Type} (f : A → M gomap).

(** The loop depends on the index it starts from through its content only. *)
Lemma loop_view l a1 a2 w :
  view a1 = view a2 →
  agree (forRange (step f) l a1 w) (forRange (step f) l a2 w).
Proof.
  revert a1 a2 w. induction l as [|x l IH]; intros a1 a2 w Ha.
  - done.
  - rewrite !forRange_cons, !step_eq.
    destruct (f x w) as [n w' out|out]; simpl; [|done].
    assert (view (mergeMaps a1 n) = view (mergeMaps a2 n)) as Hm.
    { by rewrite !view_mergeMaps, Ha. }
    specialize (IH _ _ w' Hm). unfold agree in IH.
    destruct (forRange (step f) l (mergeMaps a1 n) w'),
             (forRange (step f) l (mergeMaps a2 n) w'); simpl; try done.
    + destruct IH as (? & ? & ?). by subst.
    + by subst.
Qed.

(** An element for which [f] prints one line and returns an index without
    content leaves no other trace in the loop. *)
Lemma loop_skip (x : A) (e : event) pre post acc w :
  (∀ w, ∃ r, f x w = Returned r w [e] ∧ view r = ∅) →
  same_but e (forRange (step f) (pre ++ post) acc w)
             (forRange (step f) (pre ++ x :: post) acc w).
Proof.
  intros Hx. revert acc w. induction pre as [|y pre IH]; intros acc w;
    rewrite <- ?app_comm_cons, ?app_nil_l.
  - destruct (Hx w) as (r & Hr & Hv).
    rewrite forRange_cons, step_eq, Hr.
    pose proof (loop_view post acc (mergeMaps acc r) w) as Hag.
    rewrite view_mergeMaps_empty_r in Hag by done. specialize (Hag eq_refl).
    unfold agree in Hag.
    destruct (forRange (step f) post acc w),
             (forRange (step f) post (mergeMaps acc r) w); simpl; try done.
    + destruct Hag as (? & ? & ?). subst. split_and!; [done..|].
      by exists [], out0.
    + subst. right. by exists [], out0.
  - rewrite !forRange_cons, !step_eq.
    destruct (f y w) as [n w' out|out]; simpl; [|by left].
    specialize (IH (mergeMaps acc n) w'). unfold same_but in IH.
    destruct (forRange (step f) (pre ++ post) (mergeMaps acc n) w'),
             (forRange (step f) (pre ++ x :: post) (mergeMaps acc n) w');
      simpl; try done.
    + destruct IH as (? & ? & ?). split_and!; [done..|].
      by apply inserted_app.
    + destruct IH as [->|?]; [by left | right; by apply inserted_app].
Qed.

End Loop.

Lemma getLicenses_failing path node e w :
  failing path node e →
  ∃ r, getLicenses path node w = Returned r w [e] ∧ view r = ∅.
Proof.
  destruct node; simpl; try done; intros ->.
  - by exists None.
  - by exists (Some ∅).
Qed.

Lemma getLicenses_Directory dir entries w :
  getLicenses dir (Directory entries) w
  = match forRange (step (fun file : string * fsnode =>
                            getLicenses (filepathJoin dir file.1) file.2))
                   entries None w with
    | Returned n w' out => Returned (mergeMaps None n) w' out
    | Panicked out => Panicked out
    end.
Proof.
  cbn [getLicenses]. unfold bind at 1, getLicensesFromDir.
  change (forRange _ entries None w)
    with (forRange (step (fun file : string * fsnode =>
                            getLicenses (filepathJoin dir file.1) file.2))
                   entries None w).
  destruct (forRange _ entries None w); simpl; [|done].
  by rewrite app_nil_r.
Qed.

Lemma walkArgs_skip fs pre bad post e w :
  failing bad (fs bad) e →
  same_but e (walkArgs fs (pre ++ post) w)
             (walkArgs fs (pre ++ bad :: post) w).
Proof.
  intros Hbad. unfold walkArgs.
  apply (loop_skip (fun filename => getLicenses filename (fs filename))).
  intros w'. by apply getLicenses_failing.
Qed.

Lemma getLicenses_skip dir pre name node post e w :
  failing (filepathJoin dir name) node e →
  same_but e (getLicenses dir (Directory (pre ++ post)) w)
             (getLicenses dir (Directory (pre ++ (name, node) :: post)) w).
Proof.
  intros Hbad. rewrite !getLicenses_Directory.
  pose proof (loop_skip
    (fun file : string * fsnode =>
       getLicenses (filepathJoin dir file.1) file.2)
    (name, node) e pre post None w) as Hskip.
  unfold same_but in Hskip |- *.
  destruct (forRange _ (pre ++ post) None w),
           (forRange _ (pre ++ (name, node) :: post) None w);
    try (apply Hskip; intros w'; by apply getLicenses_failing).
  rewrite !view_mergeMaps_nil_l.
  apply Hskip; intros w'; by apply getLicenses_failing.
Qed.

Lemma main_failing_alone fs bad e w :
  failing bad (fs bad) e → main fs [bad] w = Returned 0 w [e].
Proof.
  intros Hbad. unfold main, walkArgs. cbv [bind forRange ret].
  destruct (fs bad); simpl in Hbad; try done; subst e; reflexivity.
Qed.

End WalkFacts.

Section ScanFacts.
Import Merge Run Demo.

(** Whatever the lookup says, [scanRepo] files the reference under the
    license it got back: the zero license when the lookup failed. *)
Lemma scanRepo_failed_lookup `{E : Env} licenses repo err w w' out :
  getGithubLicense repo w = Returned (zeroLicense, Some err) w' out →
  scanRepo licenses repo w
  = Returned (<[zeroLicense := append (at_key licenses zeroLicense) repo]>
                licenses)
             w'
             (out ++ [Stdout ("Error getting license info " +:+ err
                              +:+ newline)]).
Proof. intros Hl. unfold scanRepo, bind. rewrite Hl. reflexivity. Qed.

(** [scanRepo] appends the reference without looking for it in the list. *)
Lemma scanRepo_appends `{E : Env} licenses repo license err w w' out :
  getGithubLicense repo w = Returned (license, err) w' out →
  ∃ licenses' out',
    scanRepo licenses repo w = Returned licenses' w' out'
    ∧ licenses' !! license
      = Some (Some (elems (at_key licenses license) ++ [repo])).
Proof.
  intros Hl. unfold scanRepo, bind. rewrite Hl. destruct err; simpl;
    eexists _, _; (split; [reflexivity|]); by rewrite lookup_insert_eq.
Qed.

(** C2 (the code departs from it). A file with the one reference
    ["github.com/nobody/nothing"], whose lookup fails: [getLicensesFromFile]
    prints the error and goes on, but it does not skip the reference; it
    files it under the zero license. *)
Theorem failed_lookup_is_stored :
  getLicensesFromFile "deps.txt" (inr ["github.com/nobody/nothing"]) 0
  = Returned
      (Some {[ zeroLicense := Some ["github.com/nobody/nothing"] ]})
      1
      [HttpDo (mkRequest "GET" "https://api.github.com/repos/nobody/nothing"
                         None);
       Stdout ("Error getting license info dial tcp: no route to host"
               +:+ newline)].
Proof. reflexivity. Qed.

(** C3 (the code departs from it). A file that names the same repository on
    two lines: [getLicensesFromFile] lists it twice. Two files that name it
    once each: [mergeMaps] lists it once. *)
Theorem repeated_reference_in_file :
  getLicensesFromFile "deps.txt"
    (inr ["github.com/foo/bar"; "see github.com/foo/bar"]) 0
  = Returned
      (Some {[ mit := Some ["github.com/foo/bar"; "github.com/foo/bar"] ]})
      2
      [HttpDo (mkRequest "GET" "https://api.github.com/repos/foo/bar" None);
       HttpDo (mkRequest "GET" "https://api.github.com/repos/foo/bar" None)]
  ∧ mergeMaps (Some one_repo) (Some one_repo) = Some one_repo.
Proof. split; reflexivity. Qed.

Lemma sliceFrom_spec n s rest :
  sliceFrom n s = Some rest ↔
  ∃ dropped, s = dropped +:+ rest ∧ String.length dropped = n.
Proof.
  revert s. induction n as [|n IH]; intros s; simpl.
  - split.
    + intros [= ->]. by exists "".
    + intros ([|??] & -> & Hl); [done | discriminate].
  - destruct s as [|c s].
    + split; [done|]. intros ([|??] & Heq & Hl); discriminate.
    + rewrite IH. split.
      * intros (d & -> & <-). by exists (String c d).
      * intros ([|c' d] & Heq & Hl); [discriminate|].
        rewrite str_app_cons in Heq. injection Heq as -> ->.
        injection Hl as <-. by exists d.
Qed.

(** What [getGithubLicense] asks for: for a reference of eleven bytes or
    more it drops the first eleven, whatever they are; when the request for
    the base URL followed by ["/repos/"] and the remaining bytes can be
    built, it hands exactly that one GET request to the client and emits
    nothing else. For a reference that begins with ["github.com/"] the
    remaining bytes are the reference without this prefix. *)
Lemma getGithubLicense_sliced `{E : Env} (repo ownerProj : string)
    (w : world) :
  sliceFrom (String.length "github.com/") repo = Some ownerProj →
  validURL (githubAPIURL +:+ "/repos/" +:+ ownerProj) = true →
  (∃ result w',
     getGithubLicense repo w
     = Returned result w'
         [HttpDo (mkRequest "GET" (githubAPIURL +:+ "/repos/" +:+ ownerProj)
                    (if decide (authToken w = "") then None
                     else Some ("token " +:+ authToken w)))])
  ∧ (∃ dropped, repo = dropped +:+ ownerProj
                ∧ String.length dropped = String.length "github.com/")
  ∧ (∀ seg, repo = "github.com/" +:+ seg → ownerProj = seg).
Proof.
  intros Hslice Hurl. split_and!.
  - unfold getGithubLicense. rewrite Hslice, Hurl.
    unfold bind, emit, ret.
    destruct (clientDo _ w) as [[err|data] w']; [by eexists _, _|].
    destruct (jsonUnmarshal data); by eexists _, _.
  - by apply sliceFrom_spec.
  - intros seg ->. by injection Hslice.
Qed.

(** C7 (the code departs from it). [getGithubLicense] takes the first eleven
    bytes off the reference without looking at them. The extractor returns
    ["github.community/x"], which does not begin with ["github.com/"]; the
    request for it goes to [/repos/unity/x]. And the error of
    [http.NewRequest] is dropped: for a reference whose URL it refuses, such
    as one with the byte 127 in it, which the extractor returns as well, the
    request is nil and the call panics before any request is sent. A
    reference that begins with ["github.com/"] and makes a URL is asked for
    by its owner and project. *)
Theorem getGithubLicense_unchecked :
  (getGithubRepos "see github.community/x").1 = ["github.community/x"]
  ∧ Extract.stripPrefix "github.com/" "github.community/x" = None
  ∧ getGithubLicense "github.community/x" 0
    = Returned (zeroLicense, Some "dial tcp: no route to host") 1
        [HttpDo (mkRequest "GET" "https://api.github.com/repos/unity/x"
                           None)]
  ∧ (getGithubRepos Strict.odd_reference).1 = [Strict.odd_reference]
  ∧ @getGithubLicense Strict.env Strict.odd_reference 0 = Panicked []
  ∧ getGithubLicense "github.com/foo/bar" 0
    = Returned (mit, None) 1
        [HttpDo (mkRequest "GET" "https://api.github.com/repos/foo/bar"
                           None)].
Proof. split_and!; reflexivity. Qed.

End ScanFacts.

Section HeapFacts.
Import Heap.
Context (spare : nat → nat).

Lemma fresh_array_None (h0 h : heap) :
  arrays h0 ⊆ arrays h → arrays h0 !! fresh (dom (arrays h)) = None.
Proof.
  intros Hsub. eapply lookup_weaken_None; [|done].
  apply not_elem_of_dom, is_fresh.
Qed.

Lemma append_building h0 s x h :
  building h0 (s, h) → building h0 (append spare s x h).
Proof.
  intros (Hloc & Hsub & Hmaps). simpl in *.
  assert (building h0
    (Slice (fresh (dom (arrays h))) (S (len s)),
     mkHeap (<[fresh (dom (arrays h)) :=
                 contents h s ++ x :: replicate (spare (S (len s))) ""]>
               (arrays h)) (maps h))) as Hgrow.
  { split_and!; simpl; [by apply fresh_array_None| |done].
    apply insert_subseteq_r; [by apply fresh_array_None | done]. }
  destruct s as [|a n]; [done|]. unfold append.
  destruct (decide (n < length (cells h a))); [|done].
  split_and!; simpl; [done| |done]. by apply insert_subseteq_r.
Qed.

Lemma foldl_building {A} (f : hslice * heap → A → hslice * heap) h0 l st :
  (∀ st x, building h0 st → building h0 (f st x)) →
  building h0 st → building h0 (foldl f st l).
Proof.
  intros Hf. revert st. induction l as [|x l IH]; intros st Hst; simpl;
    [done|]. apply IH. by apply Hf.
Qed.

(** [appendUnique] writes to arrays of its own only. *)
Lemma appendUnique_building h cur new :
  building h (appendUnique spare cur new h).
Proof.
  unfold appendUnique. apply foldl_building.
  - intros [s h1] j Hst. simpl. destruct (found _ _ _ _); [done|].
    by apply append_building.
  - apply foldl_building; [|done].
    intros [s h1] i Hst. by apply append_building.
Qed.

(** What the loops of [mergeMaps] keep: [merged] is not a map of [h0], and
    [h0] is still there. *)
Lemma map_set_preserved h0 merged key val h :
  maps h0 !! merged = None → preserved h0 h →
  preserved h0 (map_set merged key val h).
Proof.
  intros Hm [Ha Hmaps]. split; simpl; [done|]. by apply insert_subseteq_r.
Qed.

Lemma merge_step_preserved h0 merged map2 h kv :
  maps h0 !! merged = None → preserved h0 h →
  preserved h0 (merge_step spare merged map2 h kv).
Proof.
  intros Hm Hp. destruct kv as [key val]. unfold merge_step.
  destruct (isNil _); [by apply map_set_preserved|].
  apply map_set_preserved; [done|].
  destruct (appendUnique_building h (map_get h merged key)
              (map_get h map2 key)) as (_ & Ha & Hmaps).
  destruct Hp as [Ha0 Hm0]. split.
  - by etrans.
  - by rewrite Hmaps.
Qed.

Lemma foldl_preserved {A} (f : heap → A → heap) h0 l h :
  (∀ h x, preserved h0 h → preserved h0 (f h x)) →
  preserved h0 h → preserved h0 (foldl f h l).
Proof.
  intros Hf. revert h. induction l as [|x l IH]; intros h Hh; simpl;
    [done|]. apply IH. by apply Hf.
Qed.

Lemma make_fresh h : maps h !! (make h).1 = None ∧ preserved h (make h).2.
Proof.
  assert (maps h !! fresh (dom (maps h)) = None) as Hf.
  { apply not_elem_of_dom, is_fresh. }
  split; [done|]. split; simpl; [done|]. by apply insert_subseteq.
Qed.

Lemma preserved_reads_alike h h' : preserved h h' → reads_alike h h'.
Proof.
  intros [Ha Hm]. split.
  - intros p [m Hp]. unfold map_at.
    by rewrite Hp, (lookup_weaken _ _ _ _ Hp Hm).
  - intros a n [cs Hcs]. unfold contents, cells.
    by rewrite Hcs, (lookup_weaken _ _ _ _ Hcs Ha).
Qed.

(** C10 (as amended). [mergeMaps] changes no array and no map that was there
    before the call: its arguments, and the maps and lists they share with
    others, hold afterwards what they held, in the same order. When both
    arguments are maps, or both nil, the result is a map made by the call;
    when one argument is nil, the result is the other argument itself, and
    nothing is allocated. *)
Theorem mergeMaps_frame (map1 map2 : option loc) (h : heap) :
  preserved h (mergeMaps spare map1 map2 h).2
  ∧ reads_alike h (mergeMaps spare map1 map2 h).2
  ∧ match map1, map2 with
    | None, Some _ =>
        (mergeMaps spare map1 map2 h).1 = map2
        ∧ (mergeMaps spare map1 map2 h).2 = h
    | Some _, None =>
        (mergeMaps spare map1 map2 h).1 = map1
        ∧ (mergeMaps spare map1 map2 h).2 = h
    | _, _ => freshly_built h (mergeMaps spare map1 map2 h).1
    end.
Proof.
  assert (preserved h (mergeMaps spare map1 map2 h).2) as Hpres.
  { destruct (make_fresh h) as [Hf Hp].
    destruct map1 as [p1|], map2 as [p2|]; simpl; try done.
    apply foldl_preserved.
    { intros h' kv. by apply merge_step_preserved. }
    apply foldl_preserved; [|done].
    intros h' kv. by apply map_set_preserved. }
  split; [done|]. split; [by apply preserved_reads_alike|].
  destruct (make_fresh h) as [Hf _].
  destruct map1 as [p1|], map2 as [p2|]; simpl; try done; by eexists.
Qed.

(** C10, as stated, fails when one argument is nil: the result is the other
    argument, a map that was there before. *)
Lemma mergeMaps_frame_counterexample :
  (mergeMaps doubling None (Some 1%positive) sample).1 = Some 1%positive
  ∧ ¬ freshly_built sample
        (mergeMaps doubling None (Some 1%positive) sample).1.
Proof.
  split; [reflexivity|]. intros (p & [= <-] & Hnone). done.
Qed.

End HeapFacts.

(** * Further properties of the code *)

Section ExtractMore.
Import Extract ExtractSpec.

Lemma allNonSpace_app u v :
  allNonSpace (u +:+ v) = allNonSpace u && allNonSpace v.
Proof.
  induction u as [|c u IH]; rewrite ?str_app_cons, ?str_app_nil_l; simpl;
    [done|]. rewrite IH. by rewrite andb_assoc.
Qed.

Lemma allNonSpace_match w : allNonSpace ("github.com" +:+ w) = allNonSpace w.
Proof. by rewrite allNonSpace_app. Qed.

(** A run free of white space that starts [a ++ c :: b], [c] white space,
    lies within [a]. *)
Lemma nonSpace_prefix m a c b post :
  allNonSpace m = true → isSpace c = true →
  a +:+ String c b = m +:+ post → ∃ post', a = m +:+ post'.
Proof.
  intros Hm Hc. revert a. induction m as [|x m IH]; intros a Heq.
  - by exists a.
  - simpl in Hm. apply andb_prop in Hm as [Hx Hm].
    apply negb_true_iff in Hx. destruct a as [|y a].
    + rewrite str_app_nil_l, str_app_cons in Heq. injection Heq as -> _.
      congruence.
    + rewrite !str_app_cons in Heq. injection Heq as -> Heq.
      destruct (IH Hm a Heq) as [post' ->]. by exists post'.
Qed.

Lemma length_takeNonSpace_app m post :
  allNonSpace m = true →
  String.length m ≤ String.length (takeNonSpace (m +:+ post)).
Proof.
  intros Hm. induction m as [|x m IH];
    rewrite ?str_app_cons, ?str_app_nil_l; simpl in *; [lia|].
  apply andb_prop in Hm as [Hx Hm]. apply negb_true_iff in Hx.
  rewrite Hx. simpl. specialize (IH Hm). lia.
Qed.

Lemma matchHere_app_space a c b :
  isSpace c = true → matchHere (a +:+ String c b) = matchHere a.
Proof.
  intros Hc.
  destruct (matchHere a) as [m|] eqn:Ha.
  - apply matchHere_Some in Ha as (w & post & -> & -> & Hne & Hw & Hp).
    apply matchHere_Some. exists w, (post +:+ String c b).
    split_and!; [done | by rewrite str_app_assoc | done..|].
    destruct post; [by rewrite str_app_nil_l | by rewrite str_app_cons].
  - destruct (matchHere (a +:+ String c b)) as [m|] eqn:Hab; [|done].
    apply matchHere_Some in Hab as (w & post & -> & Heq & Hne & Hw & Hp).
    destruct (nonSpace_prefix ("github.com" +:+ w) a c b post)
      as [post' ->]; [by rewrite allNonSpace_match | done..|].
    assert (matchHere (("github.com" +:+ w) +:+ post')
            = Some ("github.com" +:+ w)) as Hm; [|congruence].
    apply matchHere_Some. exists w, post'. split_and!; try done.
    rewrite str_app_assoc in Heq. apply (inj (String.append _)) in Heq.
    destruct post' as [|d post'']; [done|].
    rewrite str_app_cons in Heq. subst post. exact Hp.
Qed.

Lemma scan_app_space a c b k :
  isSpace c = true → k ≤ String.length (takeNonSpace a) →
  scan k (a +:+ String c b) = scan k a ++ scan 0 b.
Proof.
  intros Hc. revert k. induction a as [|x a IH]; intros k Hk.
  - simpl in Hk. replace k with 0 by lia. rewrite str_app_nil_l.
    rewrite scan_no_match; [done|].
    intros (d & rest & [= -> _] & _). done.
  - rewrite str_app_cons. destruct k as [|k].
    + cbn [scan].
      assert (matchHere (String x (a +:+ String c b))
              = matchHere (String x a)) as ->.
      { rewrite <- str_app_cons. by apply matchHere_app_space. }
      destruct (matchHere (String x a)) as [m|] eqn:Hm.
      * rewrite <- app_comm_cons. f_equal. apply IH.
        apply matchHere_Some in Hm as (w & post & -> & Heq & Hne & Hw & Hp).
        destruct ("github.com" +:+ w) as [|y m'] eqn:Hgh; [done|].
        rewrite str_app_cons in Heq. injection Heq as -> ->.
        assert (allNonSpace (String y m') = true) as Hall.
        { rewrite <- Hgh. by rewrite allNonSpace_match. }
        simpl in Hall. apply andb_prop in Hall as [_ Hall].
        simpl. rewrite Nat.sub_0_r. by apply length_takeNonSpace_app.
      * apply IH. lia.
    + cbn [scan]. apply IH. simpl in Hk.
      destruct (isSpace x); simpl in Hk; lia.
Qed.

(** X1. The references of a line are those of its words: for two texts with
    a white-space character between them, [getGithubRepos] returns the
    references of the first followed by those of the second. No reference
    reaches over white space. *)
Theorem getGithubRepos_words (a b : string) (c : ascii) :
  isSpace c = true →
  (getGithubRepos (a +:+ String c b)).1
  = (getGithubRepos a).1 ++ (getGithubRepos b).1.
Proof. intros Hc. apply scan_app_space; [done | lia]. Qed.

Lemma getGithubRepos_words_witness :
  isSpace " " = true
  ∧ (getGithubRepos ("see github.com/foo/bar" +:+ String " " "github.com/a/b")).1
    = (getGithubRepos "see github.com/foo/bar").1
      ++ (getGithubRepos "github.com/a/b").1.
Proof.
  split; [reflexivity|].
  exact (getGithubRepos_words "see github.com/foo/bar" "github.com/a/b" " "
           eq_refl).
Defined.

Lemma stripNewline_cons c d r :
  stripNewline (String c (String d r)) = String c (stripNewline (String d r)).
Proof. reflexivity. Qed.

Lemma stripNewline_app_newline text :
  stripNewline (text +:+ Run.newline) = text.
Proof.
  induction text as [|c text IH]; [reflexivity|].
  rewrite str_app_cons. destruct text as [|d text].
  - reflexivity.
  - rewrite str_app_cons in *. by rewrite stripNewline_cons, IH.
Qed.

Lemma stripNewline_cases text :
  (∃ t, text = t +:+ Run.newline) ∨ stripNewline text = text.
Proof.
  induction text as [|c text IH]; [by right|].
  destruct text as [|d text].
  - simpl. destruct (decide (c = "010"%char)) as [->|?]; [|by right].
    left. by exists "".
  - rewrite stripNewline_cons. destruct IH as [[t ->]| ->]; [|by right].
    left. by exists (String c t).
Qed.

(** X2. [stripNewline] takes a final newline off, one only, and returns
    any other text as it is; it never takes off more than one character. *)
Theorem stripNewline_final (text : string) :
  stripNewline (text +:+ Run.newline) = text
  ∧ ((∀ t, text ≠ t +:+ Run.newline) → stripNewline text = text)
  ∧ String.length (stripNewline text) ≤ String.length text
  ∧ String.length text ≤ S (String.length (stripNewline text)).
Proof.
  split_and!.
  - apply stripNewline_app_newline.
  - intros Hno. destruct (stripNewline_cases text) as [[t ->]|]; [|done].
    by destruct (Hno t).
  - destruct (stripNewline_cases text) as [[t ->]| ->]; [|done].
    rewrite stripNewline_app_newline, str_length_app. lia.
  - destruct (stripNewline_cases text) as [[t ->]| ->]; [|lia].
    rewrite stripNewline_app_newline, str_length_app. simpl. lia.
Qed.

(** X3. The call of [stripNewline] in the file scanner does not change what
    is found: a line has the same references with and without its final
    newline. *)
Theorem getGithubRepos_stripNewline (text : string) :
  getGithubRepos (stripNewline text) = getGithubRepos text.
Proof.
  unfold getGithubRepos. f_equal. unfold FindAllString.
  destruct (stripNewline_cases text) as [[t ->]| ->]; [|done].
  rewrite stripNewline_app_newline. unfold Run.newline.
  rewrite scan_app_space; [|done|lia]. simpl. by rewrite app_nil_r.
Qed.

End ExtractMore.

Section MergeMore.
Import Merge.

Lemma foldl_not_empty_slice {A} (f : slice → A → slice) s l :
  (∀ s x, s ≠ Some [] → f s x ≠ Some []) →
  s ≠ Some [] → foldl f s l ≠ Some [].
Proof.
  intros Hf. revert s. induction l as [|x l IH]; intros s Hs; simpl;
    [done|]. apply IH. by apply Hf.
Qed.

Lemma append_not_empty s x : append s x ≠ Some [].
Proof. unfold append. intros [= H]. by destruct (elems s). Qed.

(** [appendUnique] never returns an empty slice that is not nil. *)
Lemma appendUnique_not_empty cur new : appendUnique cur new ≠ Some [].
Proof.
  unfold appendUnique. apply foldl_not_empty_slice.
  - intros s x Hs. destruct (found _ _); [done | apply append_not_empty].
  - apply foldl_not_empty_slice; [|done].
    intros s x _. apply append_not_empty.
Qed.

Lemma filter_not_in_self (v : list string) :
  filter (fun x => x ∉ v) v = [].
Proof.
  assert (∀ l, Forall (fun x => x ∈ v) l → filter (fun x => x ∉ v) l = [])
    as Hl.
  { induction 1 as [|x l Hx _ IH]; [done|].
    rewrite filter_cons_False; [done | by intros []]. }
  apply Hl, Forall_forall. done.
Qed.

(** X4. The list [appendUnique] returns is [currentStrings], in its order,
    followed by those of [newStrings] that [currentStrings] does not have, in
    their order. It is the nil slice exactly when both arguments are empty;
    it names no string twice when neither argument does; and appending a list
    to itself adds nothing. *)
Theorem appendUnique_lists (currentStrings newStrings : slice) :
  elems (appendUnique currentStrings newStrings)
  = elems currentStrings
    ++ filter (fun x => x ∉ elems currentStrings) (elems newStrings)
  ∧ (appendUnique currentStrings newStrings = None
     ↔ elems currentStrings = [] ∧ elems newStrings = [])
  ∧ (NoDup (elems currentStrings) → NoDup (elems newStrings) →
     NoDup (elems (appendUnique currentStrings newStrings)))
  ∧ elems (appendUnique currentStrings currentStrings)
    = elems currentStrings.
Proof.
  split_and!.
  - apply elems_appendUnique.
  - pose proof (appendUnique_not_empty currentStrings newStrings) as Hne.
    pose proof (elems_appendUnique currentStrings newStrings) as He.
    unfold add_new in He. split.
    + intros Hnil. rewrite Hnil in He. simpl in He. symmetry in He.
      apply app_eq_nil in He as [Hc Hf]. split; [done|].
      rewrite Hc in Hf. pose proof (add_new_nil_l (elems newStrings)) as Hn.
      unfold add_new in Hn. simpl in Hn. by rewrite <- Hn.
    + intros [Hc Hn]. rewrite Hc, Hn in He. simpl in He.
      destruct (appendUnique currentStrings newStrings) as [l|]; [|done].
      simpl in He. by subst l.
  - intros Hc Hn. rewrite elems_appendUnique. by apply NoDup_add_new.
  - rewrite elems_appendUnique. unfold add_new.
    by rewrite filter_not_in_self, app_nil_r.
Qed.

(** X5. What [mergeMaps] lists under a license, for any two maps, nil or
    not: the list of the one map that has the license, or, when both have
    it, the list of the first followed by those repositories of the second
    that the first does not list. So no license and no repository of either
    map is lost, and the first map's lists stay in front. *)
Theorem mergeMaps_lists (a b : gomap) :
  view (mergeMaps a b)
  = union_with (fun v w => Some (v ++ filter (fun x => x ∉ v) w))
               (view a) (view b)
  ∧ (∀ k v, view a !! k = Some v →
       ∃ r, view (mergeMaps a b) !! k = Some r ∧ v `prefix_of` r)
  ∧ (∀ k w x, view b !! k = Some w → x ∈ w →
       ∃ r, view (mergeMaps a b) !! k = Some r ∧ x ∈ r).
Proof.
  pose proof (view_mergeMaps a b) as Hv. unfold add_new in Hv.
  split_and!; [done| |].
  - intros k v Hk. rewrite Hv, lookup_union_with, Hk.
    destruct (view b !! k) as [w|]; simpl; eexists; (split; [done|]).
    + by apply prefix_app_r.
    + done.
  - intros k w x Hk Hx. rewrite Hv, lookup_union_with, Hk.
    destruct (view a !! k) as [v|]; simpl; eexists; (split; [done|]);
      [|done].
    apply (elem_of_add_new v w x). by right.
Qed.

(** X6. Merging a map with itself changes no list: every license keeps its
    repositories, in their order, duplicates included. *)
Theorem mergeMaps_self (a : gomap) : view (mergeMaps a a) = view a.
Proof.
  rewrite view_mergeMaps. apply map_eq; intros k.
  rewrite lookup_union_with. destruct (view a !! k) as [v|]; [|done].
  simpl. unfold add_new. by rewrite filter_not_in_self, app_nil_r.
Qed.

(** X7. The order in which [range] yields the entries of the two maps does
    not show in the result of [mergeMaps]. *)
Theorem mergeMaps_range_order (m1 m2 : index)
    (order1 order2 : list (License * slice)) :
  order1 ≡ₚ map_to_list m1 → order2 ≡ₚ map_to_list m2 →
  Some (merge_loops order1 order2 m2) = mergeMaps (Some m1) (Some m2).
Proof. intros H1 H2. simpl. f_equal. by apply merge_loops_order. Qed.

Lemma mergeMaps_range_order_witness :
  reverse (map_to_list one_repo) ≡ₚ map_to_list one_repo
  ∧ reverse (map_to_list two_repos) ≡ₚ map_to_list two_repos
  ∧ Some (merge_loops (reverse (map_to_list one_repo))
                      (reverse (map_to_list two_repos)) two_repos)
    = mergeMaps (Some one_repo) (Some two_repos).
Proof.
  split; [apply reverse_Permutation|].
  split; [apply reverse_Permutation|].
  exact (mergeMaps_range_order one_repo two_repos _ _
           (reverse_Permutation _) (reverse_Permutation _)).
Defined.

End MergeMore.

Section ScanMore.
Import Merge Run WalkSpec ScanSpec.
Context `{E : Env}.

(** X8. [getGithubLicense] either panics or sends one request. It panics
    only for a reference shorter than ["github.com/"] or a URL that
    [http.NewRequest] refuses, and then before anything is sent. After the
    request it returns the zero license whenever it returns an error; the
    request is a GET for the reference's URL, with an Authorization header
    exactly when the token is not empty. *)
Theorem getGithubLicense_outcomes (repo : string) (w : world) :
  resolver_outcome repo w (getGithubLicense repo w).
Proof.
  unfold resolver_outcome, getGithubLicense, target.
  destruct (sliceFrom _ repo) as [ownerProj|]; simpl; [|by split; [|left]].
  destruct (validURL _) eqn:Hurl; [|by split; [|right]].
  unfold bind, emit, ret.
  destruct (clientDo _ w) as [[err|data] w']; simpl.
  - split; [done|]. eexists; split_and!; try done; simpl.
    destruct (decide (authToken w = "")); naive_solver.
  - destruct (jsonUnmarshal data); simpl; (split; [done|]);
      eexists; split_and!; try done; simpl;
      destruct (decide (authToken w = "")); naive_solver.
Qed.

Lemma all_repos_insert (m : index) k repo :
  all_repos (<[k := append (at_key m k) repo]> m) ≡ₚ all_repos m ++ [repo].
Proof.
  unfold all_repos, at_key. destruct (m !! k) as [v|] eqn:Hk; simpl.
  - rewrite <- insert_delete_eq.
    rewrite map_to_list_insert by apply lookup_delete_eq.
    rewrite <- (map_to_list_delete m k v Hk). rewrite !fmap_cons. simpl.
    unfold append. simpl. rewrite <- !app_assoc.
    apply Permutation_app_head. apply Permutation_app_comm.
  - rewrite map_to_list_insert by done. rewrite fmap_cons. simpl.
    apply (Permutation_cons_append _ repo).
Qed.

Lemma lists_nonempty_insert (m : index) k repo :
  lists_nonempty m → lists_nonempty (<[k := append (at_key m k) repo]> m).
Proof.
  intros Hm k' v. destruct (decide (k = k')) as [->|Hne].
  - rewrite lookup_insert_eq. intros [= <-]. unfold append. simpl.
    by destruct (elems (at_key m k')).
  - rewrite lookup_insert_ne by done. apply Hm.
Qed.

Lemma scanRepo_filed licenses repo w :
  is_Some (sliceFrom (String.length "github.com/") repo) →
  filed licenses [repo] (scanRepo licenses repo w).
Proof.
  intros [rest Hs]. pose proof (getGithubLicense_outcomes repo w) as Ho.
  unfold scanRepo, bind. unfold resolver_outcome in Ho.
  destruct (getGithubLicense repo w) as [[license err] w' out|out].
  - destruct Ho as (_ & req & -> & _ & Hurl & _).
    destruct err as [e|]; simpl; rewrite Hurl;
      (split_and!; [apply all_repos_insert | done
                   | apply lists_nonempty_insert]).
  - destruct Ho as [-> [Hnone|Hbad]]; [congruence|].
    exists repo. split; [left | done].
Qed.

Lemma requests_app out out' :
  requests (out ++ out') = requests out ++ requests out'.
Proof. apply omap_app. Qed.

Lemma forRange_scanRepo_filed repos licenses w :
  Forall (fun repo =>
            is_Some (sliceFrom (String.length "github.com/") repo)) repos →
  filed licenses repos (forRange scanRepo repos licenses w).
Proof.
  intros Hok. revert licenses w.
  induction Hok as [|repo repos Hr _ IH]; intros licenses w.
  - simpl. split_and!; [by rewrite app_nil_r | done..].
  - rewrite forRange_cons.
    pose proof (scanRepo_filed licenses repo w Hr) as H1.
    destruct (scanRepo licenses repo w) as [m1 w1 out1|out1]; simpl in H1.
    + specialize (IH m1 w1).
      destruct (forRange scanRepo repos m1 w1) as [m2 w2 out2|out2];
        simpl in IH |- *.
      * destruct H1 as (Hp1 & Hq1 & Hn1), IH as (Hp2 & Hq2 & Hn2).
        split_and!.
        -- rewrite Hp2, Hp1. by rewrite <- app_assoc.
        -- by rewrite requests_app, !fmap_app, Hq1, Hq2.
        -- auto.
      * destruct IH as (r & Hin & Hbad). exists r. split; [by right|done].
    + destruct H1 as (r & Hin & Hbad). exists r.
      apply list_elem_of_singleton in Hin as ->. split; [left|done].
Qed.

Lemma extracted_sliceable line :
  Forall (fun repo =>
            is_Some (sliceFrom (String.length "github.com/") repo))
         (getGithubRepos line).1.
Proof.
  apply Forall_forall. intros repo (c & rest & ->)%scan_elem. by eexists.
Qed.

Lemma scanLine_filed licenses text w :
  filed licenses (getGithubRepos (stripNewline text)).1
        (scanLine licenses text w).
Proof.
  pose proof (forRange_scanRepo_filed
                (getGithubRepos (stripNewline text)).1 licenses w
                (extracted_sliceable _)) as H.
  unfold scanLine. simpl. unfold bind at 1, ret. simpl.
  simpl in H. destruct (forRange scanRepo _ licenses w); simpl; done.
Qed.

Lemma filed_seq m0 r1 r2 (o1 : outcome world index)
    (k : index → world → outcome world index) :
  filed m0 r1 o1 → (∀ m1 w1, filed m1 r2 (k m1 w1)) →
  filed m0 (r1 ++ r2)
    match o1 with
    | Returned m1 w1 out1 =>
        match k m1 w1 with
        | Returned m2 w2 out2 => Returned m2 w2 (out1 ++ out2)
        | Panicked out2 => Panicked (out1 ++ out2)
        end
    | Panicked out1 => Panicked out1
    end.
Proof.
  intros H1 Hk. destruct o1 as [m1 w1 out1|out1]; simpl in H1.
  - specialize (Hk m1 w1). destruct (k m1 w1) as [m2 w2 out2|out2];
      simpl in Hk |- *.
    + destruct H1 as (Hp1 & Hq1 & Hn1), Hk as (Hp2 & Hq2 & Hn2).
      split_and!.
      * rewrite Hp2, Hp1. by rewrite <- app_assoc.
      * by rewrite requests_app, !fmap_app, Hq1, Hq2.
      * auto.
    + destruct Hk as (r & Hin & Hbad). exists r.
      split; [|done]. apply elem_of_app. by right.
  - destruct H1 as (r & Hin & Hbad). exists r.
    split; [|done]. apply elem_of_app. by left.
Qed.

Lemma forRange_scanLine_filed lines licenses w :
  filed licenses (references lines) (forRange scanLine lines licenses w).
Proof.
  revert licenses w. induction lines as [|text lines IH]; intros licenses w.
  - simpl. split_and!; [by rewrite app_nil_r | done..].
  - rewrite forRange_cons. unfold references. rewrite fmap_cons. simpl.
    apply (filed_seq licenses _ _ (scanLine licenses text w)
             (forRange scanLine lines)).
    + apply scanLine_filed.
    + apply IH.
Qed.

(** X9. The scan of a file that opens. If it returns, the index is a map
    (never nil) that holds each reference of the file's lines exactly as
    often as the lines name it, under one license or another and in no
    empty list; and one request was made for each of them, in their order.
    It panics only at a reference whose URL [http.NewRequest] refuses: the
    slice of a reference the extractor found is never out of bounds. *)
Theorem getLicensesFromFile_files (filename : string) (lines : list string)
    (w : world) :
  match getLicensesFromFile filename (inr lines) w with
  | Returned r w' out =>
      ∃ m, r = Some m
           ∧ all_repos m ≡ₚ references lines
           ∧ url <$> requests out = target <$> references lines
           ∧ lists_nonempty m
  | Panicked out =>
      ∃ repo, repo ∈ references lines ∧ validURL (target repo) = false
  end.
Proof.
  pose proof (forRange_scanLine_filed lines ∅ w) as H.
  unfold getLicensesFromFile, bind at 1 2, ret. simpl.
  destruct (forRange scanLine lines ∅ w) as [m w' out|out]; simpl in H |- *;
    [|done].
  destruct H as (Hp & Hq & Hn). exists m. split_and!; [done| | |].
  - by rewrite Hp.
  - by rewrite app_nil_r.
  - apply Hn. intros k v. by rewrite lookup_empty.
Qed.

End ScanMore.

Section WalkMore.
Import Merge Run WalkSpec ScanSpec.
Context `{E : Env}.

Lemma getLicensesFromFile_Some filename file w r w' out :
  getLicensesFromFile filename file w = Returned r w' out → ∃ m, r = Some m.
Proof.
  unfold getLicensesFromFile, bind, ret, Printf, emit.
  destruct file as [err|lines]; simpl.
  - intros [= <- _ _]. by eexists.
  - destruct (forRange scanLine lines ∅ w); [|done].
    intros [= <- _ _]. by eexists.
Qed.

Lemma getLicenses_Unopenable filename err w :
  getLicenses filename (Unopenable err) w = Returned (Some ∅) w [openDiag err].
Proof. reflexivity. Qed.

(** X10. A file that cannot be opened: the scanner prints one line, which
    names [go.mod] whatever the file is called, and gives the empty map.
    Among the arguments of the program, and among the entries of a
    directory, the other paths are walked as if this file were not there,
    but for the line printed. *)
Theorem unopenable_file_is_skipped :
  (∀ filename err w,
     getLicenses filename (Unopenable err) w
     = Returned (Some ∅) w
         [Stdout ("Error opening file go.mod. Error: " +:+ err +:+ newline)])
  ∧ (∀ fs pre bad post err w,
       fs bad = Unopenable err →
       same_but (openDiag err) (walkArgs fs (pre ++ post) w)
                (walkArgs fs (pre ++ bad :: post) w))
  ∧ (∀ dir pre name post err w,
       same_but (openDiag err)
         (getLicenses dir (Directory (pre ++ post)) w)
         (getLicenses dir (Directory (pre ++ (name, Unopenable err) :: post))
                      w)).
Proof.
  split_and!.
  - reflexivity.
  - intros fs pre bad post err w Hbad. unfold walkArgs.
    apply (loop_skip (fun filename => getLicenses filename (fs filename))).
    intros w'. exists (Some ∅). rewrite Hbad. by split.
  - intros dir pre name post err w. rewrite !getLicenses_Directory.
    pose proof (loop_skip
      (fun file : string * fsnode =>
         getLicenses (filepathJoin dir file.1) file.2)
      (name, Unopenable err) (openDiag err) pre post None w) as Hskip.
    unfold same_but in Hskip |- *.
    destruct (forRange _ (pre ++ post) None w),
             (forRange _ (pre ++ (name, Unopenable err) :: post) None w);
      try (apply Hskip; intros w'; exists (Some ∅); by split).
    rewrite !view_mergeMaps_nil_l.
    apply Hskip; intros w'; exists (Some ∅); by split.
Qed.

(** X11. Walking a regular file is scanning it: [getLicenses] returns what
    [getLicensesFromFile] returns, with the same output, and panics when it
    does. *)
Theorem getLicenses_regular_file (filename : string) (lines : list string)
    (w : world) :
  getLicenses filename (RegularFile lines) w
  = getLicensesFromFile filename (inr lines) w.
Proof.
  cbn [getLicenses]. unfold bind at 1, ret.
  destruct (getLicensesFromFile filename (inr lines) w) as [r w' out|out]
    eqn:Hscan; [|done].
  apply getLicensesFromFile_Some in Hscan as [m ->]. simpl.
  by rewrite app_nil_r.
Qed.

Lemma forRange_step_fmap {A B} (g : B → M gomap) (h : A → B) l acc w :
  forRange (step g) (h <$> l) acc w = forRange (step (g ∘ h)) l acc w.
Proof.
  revert acc w. induction l as [|x l IH]; intros acc w; [done|].
  rewrite fmap_cons, !forRange_cons, !step_eq. simpl.
  destruct (g (h x) w) as [n w' out|out]; [|done]. by rewrite IH.
Qed.

Lemma forRange_step_ext {A} (f f' : A → M gomap) l acc w :
  (∀ x, x ∈ l → ∀ w, f x w = f' x w) →
  forRange (step f) l acc w = forRange (step f') l acc w.
Proof.
  revert acc w. induction l as [|x l IH]; intros acc w Hext; [done|].
  rewrite !forRange_cons, !step_eq. rewrite (Hext x) by left.
  destruct (f' x w) as [n w' out|out]; [|done].
  rewrite IH; [done|]. intros y Hy. apply Hext. by right.
Qed.

(** X12. A directory is walked as its entries would be as arguments: when
    [fs] holds each entry at its joined path, [getLicenses] on the directory
    and the loop of [main] over the joined paths print the same, leave the
    same world and list the same repositories under the same licenses. *)
Theorem directory_as_arguments (dir : string)
    (entries : list (string * fsnode)) (fs : string → fsnode) (w : world) :
  (∀ name node, (name, node) ∈ entries → fs (filepathJoin dir name) = node) →
  agree (getLicenses dir (Directory entries) w)
        (walkArgs fs ((fun file => filepathJoin dir file.1) <$> entries) w).
Proof.
  intros Hfs. rewrite getLicenses_Directory. unfold walkArgs.
  change (forRange _ (_ <$> entries) None w)
    with (forRange (step (fun filename => getLicenses filename (fs filename)))
            ((fun file => filepathJoin dir file.1) <$> entries) None w).
  rewrite forRange_step_fmap.
  rewrite (forRange_step_ext
             ((fun filename => getLicenses filename (fs filename))
              ∘ (fun file : string * fsnode => filepathJoin dir file.1))
             (fun file => getLicenses (filepathJoin dir file.1) file.2)).
  - destruct (forRange _ entries None w) as [n w' out|out]; simpl; [|done].
    split; [|done]. apply (view_mergeMaps_nil_l n).
  - intros [name node] Hin w'. simpl. by rewrite (Hfs name node).
Qed.

End WalkMore.

Section WalkMoreWitness.
Import Demo.

Lemma directory_as_arguments_witness :
  (∀ name node,
     (name, node) ∈ [("deps.txt", RegularFile ["github.com/foo/bar"])] →
     (fun _ => RegularFile ["github.com/foo/bar"])
       (filepathJoin "vendor" name) = node)
  ∧ WalkSpec.agree
      (Run.getLicenses "vendor"
         (Directory [("deps.txt", RegularFile ["github.com/foo/bar"])]) 0)
      (Run.walkArgs (fun _ => RegularFile ["github.com/foo/bar"])
         ((fun file => filepathJoin "vendor" file.1)
            <$> [("deps.txt", RegularFile ["github.com/foo/bar"])]) 0).
Proof.
  assert (∀ name node,
     (name, node) ∈ [("deps.txt", RegularFile ["github.com/foo/bar"])] →
     (fun _ : string => RegularFile ["github.com/foo/bar"])
       (filepathJoin "vendor" name) = node) as H.
  { intros name node Hin. apply list_elem_of_singleton in Hin.
    by injection Hin as -> ->. }
  split; [exact H|].
  exact (@directory_as_arguments Demo.env "vendor"
           [("deps.txt", RegularFile ["github.com/foo/bar"])]
           (fun _ => RegularFile ["github.com/foo/bar"]) 0 H).
Defined.

End WalkMoreWitness.

Section ReportFacts.
Import Merge Run WalkSpec ScanSpec.
Context `{E : Env}.

Lemma stdout_text_app out out' :
  stdout_text (out ++ out') = stdout_text out +:+ stdout_text out'.
Proof.
  induction out as [|[text|req] out IH]; simpl; [done| |done].
  by rewrite IH, str_app_assoc.
Qed.

Lemma print_loop (l : list string) w :
  forRange (fun (_ : unit) a => Printf (a +:+ ", ")) l tt w
  = Returned tt w ((fun a => Stdout (a +:+ ", ")) <$> l).
Proof.
  induction l as [|a l IH]; [done|].
  rewrite forRange_cons. unfold Printf at 1, emit. by rewrite IH.
Qed.

Lemma requests_print_loop (l : list string) :
  requests ((fun a => Stdout (a +:+ ", ")) <$> l) = [].
Proof. by induction l. Qed.

Lemma join_removelast (x : string) (l : list string) :
  stdout_text ((fun a => Stdout (a +:+ ", ")) <$> removelast (x :: l))
  +:+ List.last (x :: l) ""
  = join ", " (x :: l).
Proof.
  revert x. induction l as [|y l IH]; intros x; [done|].
  change (removelast (x :: y :: l)) with (x :: removelast (y :: l)).
  change (List.last (x :: y :: l) "") with (List.last (y :: l) "").
  rewrite fmap_cons.
  change (stdout_text (Stdout (x +:+ ", ") :: ?out))
    with ((x +:+ ", ") +:+ stdout_text out).
  change (join ", " (x :: y :: l)) with (x +:+ ", " +:+ join ", " (y :: l)).
  rewrite !str_app_assoc, IH. done.
Qed.

(** X13. [printArr] writes the prompt, a colon and a space, the strings
    with a comma and a space between them, and a newline; for no string it
    writes the prompt, the colon, the space and the newline. It sends
    nothing and always returns: the slice [arr[:arrLen-1]] and the index
    [arrLen-1] are only used for a list that is not empty. *)
Theorem printArr_text (prompt : string) (arr : list string) (w : world) :
  ∃ out,
    printArr prompt arr w = Returned tt w out
    ∧ requests out = []
    ∧ stdout_text out = prompt +:+ ": " +:+ join ", " arr +:+ newline.
Proof.
  unfold printArr. destruct arr as [|x l].
  - eexists. split; [reflexivity|]. split; [done|]. simpl.
    by rewrite !str_app_assoc, str_app_nil_r.
  - pose proof (join_removelast x l) as Hj.
    assert (printArr prompt (x :: l) w
            = Returned tt w
                (Stdout (prompt +:+ ": ")
                 :: ((fun a => Stdout (a +:+ ", ")) <$> removelast (x :: l))
                 ++ [Stdout (List.last (x :: l) "" +:+ newline)])) as Heq.
    { unfold printArr, bind at 1 2. unfold Printf at 1, emit.
      rewrite print_loop. reflexivity. }
    unfold printArr in Heq.
    remember (removelast (x :: l)) as rl eqn:Hrl in *.
    remember (List.last (x :: l) "") as la eqn:Hla in *.
    remember (join ", " (x :: l)) as j eqn:Hjn in *.
    clear Hrl Hla Hjn.
    eexists. split; [exact Heq|]. split.
    + change (requests (Stdout ?t :: ?out)) with (requests out).
      rewrite requests_app, requests_print_loop. done.
    + change (stdout_text (Stdout ?t :: ?out)) with (t +:+ stdout_text out).
      rewrite stdout_text_app.
      change (stdout_text [Stdout ?t]) with (t +:+ "").
      rewrite str_app_nil_r, <- Hj. by rewrite !str_app_assoc.
Qed.

Lemma report_entry (entry : License * slice) w :
  ∃ out,
    bind (print entry.1)
         (fun _ => bind (printArr "Repos" (elems entry.2))
                        (fun _ => Printf newline)) w
    = Returned tt w out
    ∧ requests out = []
    ∧ stdout_text out = block entry.
Proof.
  destruct (printArr_text "Repos" (elems entry.2) w) as (out & Hp & Hr & Ht).
  unfold bind, print. unfold Printf at 1, emit. rewrite Hp.
  unfold Printf, emit.
  eexists. split; [reflexivity|]. split.
  - by rewrite !requests_app, Hr.
  - rewrite !stdout_text_app, Ht.
    change (stdout_text [Stdout ?t]) with (t +:+ "").
    unfold block. by rewrite !str_app_nil_r, !str_app_assoc.
Qed.

Lemma report_loop (entries : list (License * slice)) w :
  ∃ out,
    forRange (fun (_ : unit) entry =>
                bind (print entry.1)
                     (fun _ => bind (printArr "Repos" (elems entry.2))
                                    (fun _ => Printf newline)))
             entries tt w
    = Returned tt w out
    ∧ requests out = []
    ∧ stdout_text out = foldr (fun entry rest => block entry +:+ rest) ""
                              entries.
Proof.
  induction entries as [|entry entries IH]; [by eexists|].
  destruct IH as (out' & Hl & Hr' & Ht').
  destruct (report_entry entry w) as (out & He & Hr & Ht).
  rewrite forRange_cons, He, Hl. eexists. split; [reflexivity|]. split.
  - by rewrite requests_app, Hr, Hr'.
  - rewrite stdout_text_app, Ht, Ht'. done.
Qed.

Lemma prettyPrintLicenses_report_aux (licenses : gomap) w :
  ∃ out,
    prettyPrintLicenses licenses w = Returned tt w out
    ∧ requests out = []
    ∧ stdout_text out = report licenses.
Proof. unfold prettyPrintLicenses, report. apply report_loop. Qed.

(** X14. [prettyPrintLicenses] writes, for each license of the map in the
    order [range] yields them, the line with its name, key and URL, the line
    of its repositories with commas between them, and an empty line; for the
    nil map and for the empty map it writes nothing. It sends nothing and
    always returns. *)
Theorem prettyPrintLicenses_report (licenses : gomap) (w : world) :
  (∃ out,
     prettyPrintLicenses licenses w = Returned tt w out
     ∧ requests out = []
     ∧ stdout_text out = report licenses)
  ∧ prettyPrintLicenses None w = Returned tt w []
  ∧ prettyPrintLicenses (Some ∅) w = Returned tt w [].
Proof.
  split; [|split; reflexivity]. apply prettyPrintLicenses_report_aux.
Qed.

(** X15. [main] without an argument prints the usage line and ends with
    status 1, having walked nothing. With arguments it walks them, prints the
    report of the merged index after what the walk printed, and ends with
    status 0; it panics only when the walk does. *)
Theorem main_status (fs : string → fsnode) (args : list string) (w : world) :
  match args with
  | [] => main fs args w = Returned 1 w [usage]
  | _ :: _ =>
      match walkArgs fs args w with
      | Returned licenses w' out =>
          ∃ out', main fs args w = Returned 0 w' (out ++ out')
                  ∧ requests out' = []
                  ∧ stdout_text out' = report licenses
      | Panicked out => main fs args w = Panicked out
      end
  end.
Proof.
  destruct args as [|a args]; [reflexivity|].
  unfold main. unfold bind at 1 3.
  destruct (walkArgs fs (a :: args) w) as [licenses w' out|out]; [|done].
  destruct (prettyPrintLicenses_report_aux licenses w')
    as (out' & Hp & Hr & Ht).
  unfold bind, ret. rewrite Hp. exists out'. by rewrite app_nil_r.
Qed.

End ReportFacts.

(** ** Failing paths at any depth *)

Section WalkerFailures.
Import Merge Run WalkSpec ScanSpec.
Context `{E : Env}.

Lemma fsnode_deep_ind (P : fsnode → Prop) :
  (∀ err, P (StatError err)) →
  (∀ err, P (Unopenable err)) →
  (∀ lines, P (RegularFile lines)) →
  (∀ err, P (Unlistable err)) →
  (∀ entries, Forall (fun file : string * fsnode => P file.2) entries →
              P (Directory entries)) →
  ∀ node, P node.
Proof.
  intros Hs Ho Hr Hu Hd. fix IH 1.
  intros [err|err|lines|err|entries];
    [apply Hs | apply Ho | apply Hr | apply Hu | apply Hd].
  induction entries as [|[name node] entries IHl]; constructor.
  - apply IH.
  - apply IHl.
Qed.

Lemma interleaved_nil_r t : interleaved t [] t.
Proof. induction t; by constructor. Qed.

Lemma interleaved_nil_l d : interleaved [] d d.
Proof. induction d; by constructor. Qed.

Lemma interleaved_app t1 d1 u1 t2 d2 u2 :
  interleaved t1 d1 u1 → interleaved t2 d2 u2 →
  interleaved (t1 ++ t2) (d1 ++ d2) (u1 ++ u2).
Proof.
  intros H1 H2. induction H1; simpl; [done | by constructor..].
Qed.

Lemma same_but_for_refl o : same_but_for [] o o.
Proof.
  destruct o; simpl.
  - split_and!; [done..|]. apply interleaved_nil_r.
  - exists []. split; [done|]. apply interleaved_nil_r.
Qed.

Lemma walkable_omap fs args :
  walkable fs args
  = omap (fun filename => if failed (fs filename) then None
                          else Some filename) args.
Proof.
  unfold walkable. induction args as [|a args IH]; [done|].
  rewrite filter_cons.
  change (omap ?f (a :: args))
    with (match f a with Some y => y :: omap f args | None => omap f args end).
  cbv beta. rewrite <- IH.
  destruct (failed (fs a)); by destruct (decide _).
Qed.

Lemma report_view (l1 l2 : gomap) : view l1 = view l2 → report l1 = report l2.
Proof.
  assert (∀ l, report l
               = foldr (fun (entry : License * list string) rest =>
                          ("Name: " +:+ Name entry.1 +:+ " | Key: "
                           +:+ Key entry.1 +:+ " | URL: " +:+ URL entry.1
                           +:+ newline +:+ "Repos: " +:+ join ", " entry.2
                           +:+ newline +:+ newline) +:+ rest)
                       "" (map_to_list (view l))) as Hr.
  { intros l. unfold report, view. rewrite map_to_list_fmap.
    induction (map_to_list (default ∅ l)) as [|[k v] es IH]; [done|].
    rewrite fmap_cons. simpl. by rewrite IH. }
  intros Hv. by rewrite !Hr, Hv.
Qed.

Section Loop.
Context {A B : Type} (f1 : B → M gomap) (f2 : A → M gomap).
Context (keep : A → option B) (diag : A → list event).

(** The loop over all elements against the loop over the elements kept. *)
Lemma loop_pruned l a1 a2 w :
  Forall (fun x =>
            match keep x with
            | Some y => ∀ w, same_but_for (diag x) (f1 y w) (f2 x w)
            | None => ∀ w, ∃ r, f2 x w = Returned r w (diag x) ∧ view r = ∅
            end) l →
  view a1 = view a2 →
  same_but_for (concat (diag <$> l))
               (forRange (step f1) (omap keep l) a1 w)
               (forRange (step f2) l a2 w).
Proof.
  intros Hl. revert a1 a2 w.
  induction Hl as [|x l Hx Hl IH]; intros a1 a2 w Ha.
  - simpl. split_and!; [done..|]. constructor.
  - rewrite fmap_cons. cbn [concat].
    change (omap keep (x :: l))
      with (match keep x with
            | Some y => y :: omap keep l
            | None => omap keep l
            end).
    rewrite (forRange_cons (step f2)), step_eq.
    revert Hx. destruct (keep x) as [y|]; intros Hx.
    + rewrite forRange_cons, step_eq. specialize (Hx w).
      unfold same_but_for in Hx.
      destruct (f1 y w) as [n1 w1 o1|o1], (f2 x w) as [n2 w2 o2|o2];
        try done.
      * destruct Hx as (Hn & <- & Ho).
        assert (view (mergeMaps a1 n1) = view (mergeMaps a2 n2)) as Hm.
        { by rewrite !view_mergeMaps, Ha, Hn. }
        specialize (IH _ _ w1 Hm). unfold same_but_for in IH |- *.
        destruct (forRange (step f1) (omap keep l) (mergeMaps a1 n1) w1),
                 (forRange (step f2) l (mergeMaps a2 n2) w1); try done.
        -- destruct IH as (? & ? & ?). split_and!; [done..|].
           by apply interleaved_app.
        -- destruct IH as (d' & Hd' & Hi). exists (diag x ++ d'). split.
           ++ by apply prefix_app.
           ++ by apply interleaved_app.
      * destruct Hx as (d' & Hd' & Hi). exists d'. split; [|done].
        by apply prefix_app_r.
    + destruct (Hx w) as (r & -> & Hr).
      assert (view a1 = view (mergeMaps a2 r)) as Hm.
      { by rewrite view_mergeMaps_empty_r. }
      specialize (IH _ _ w Hm). unfold same_but_for in IH |- *.
      destruct (forRange (step f1) (omap keep l) a1 w) as [? ? t1|t1],
               (forRange (step f2) l (mergeMaps a2 r) w); try done.
      * destruct IH as (? & ? & ?). split_and!; [done..|].
        apply (interleaved_app [] (diag x) (diag x) t1); [|done].
        apply interleaved_nil_l.
      * destruct IH as (d' & Hd' & Hi). exists (diag x ++ d'). split.
        -- by apply prefix_app.
        -- apply (interleaved_app [] (diag x) (diag x) t1); [|done].
           apply interleaved_nil_l.
Qed.

End Loop.

Lemma getLicenses_failed path node w :
  failed node = true →
  ∃ r, getLicenses path node w = Returned r w (failures path node)
       ∧ view r = ∅.
Proof.
  destruct node; try done; intros _.
  - by exists None.
  - by exists (Some ∅).
Qed.

Lemma getLicenses_pruned node :
  ∀ path w,
    failed node = false →
    same_but_for (failures path node)
                 (getLicenses path (prune node) w) (getLicenses path node w).
Proof.
  induction node as [err|err|lines|err|entries IH] using fsnode_deep_ind;
    intros path w Hf; try done; try apply same_but_for_refl.
  cbn [prune failures]. rewrite !getLicenses_Directory.
  pose proof (loop_pruned
    (fun file : string * fsnode =>
       getLicenses (filepathJoin path file.1) file.2)
    (fun file : string * fsnode =>
       getLicenses (filepathJoin path file.1) file.2)
    (fun file : string * fsnode =>
       if failed file.2 then None else Some (file.1, prune file.2))
    (fun file : string * fsnode =>
       failures (filepathJoin path file.1) file.2)
    entries None None w) as Hloop.
  unfold same_but_for in Hloop |- *.
  destruct (forRange _ (omap _ entries) None w),
           (forRange _ entries None w);
    try (apply Hloop; [|done]).
  1: rewrite !view_mergeMaps_nil_l; apply Hloop; [|done].
  all: eapply Forall_impl; [exact IH|];
    intros [name node] Hn; simpl in Hn |- *;
    destruct (failed node) eqn:Hfn;
    [ intros w'; by apply getLicenses_failed
    | intros w'; by apply Hn ].
Qed.

Lemma walkArgs_pruned fs args w :
  same_but_for (arg_failures fs args)
               (walkArgs (prune ∘ fs) (walkable fs args) w)
               (walkArgs fs args w).
Proof.
  unfold walkArgs, arg_failures. rewrite walkable_omap.
  apply (loop_pruned
    (fun filename => getLicenses filename ((prune ∘ fs) filename))
    (fun filename => getLicenses filename (fs filename))
    (fun filename => if failed (fs filename) then None else Some filename)
    (fun filename => failures filename (fs filename))); [|done].
  apply Forall_forall. intros a _. destruct (failed (fs a)) eqn:Hfa.
  - intros w'. by apply getLicenses_failed.
  - intros w'. by apply getLicenses_pruned.
Qed.

(** C8. A path whose metadata cannot be read makes [getLicenses] print one
    line and return the nil index; a directory that cannot be listed makes
    [getLicensesFromDir] print one line and return the nil index, which
    [getLicenses] hands on as the empty index. No such path, at whatever
    depth, ends the run or keeps another path from being walked:
    - among the arguments of the program, and among the entries of a
      directory, the other paths are walked as if a failing one were not
      there, but for the line printed;
    - a run on a failing path alone ends with status 0;
    - the walk of a tree differs from the walk of the tree without its
      failing paths by their lines only: it returns when that one does, with
      the same licenses and repositories, and panics only when that one
      does, at the same point;
    - so does the walk of the arguments of the program;
    - and [main], given an argument, ends with status 0 and the same report
      whenever the walk of what is left without the failing paths
      returns. *)
Theorem walker_failure_is_local :
  (∀ filename err w,
     getLicenses filename (StatError err) w
     = Returned None w [statDiag filename err])
  ∧ (∀ dir err w,
       getLicensesFromDir getLicenses dir (inl err) w
       = Returned None w [dirDiag dir err]
       ∧ getLicenses dir (Unlistable err) w
         = Returned (Some ∅) w [dirDiag dir err])
  ∧ (∀ fs pre bad post e w,
       failing bad (fs bad) e →
       same_but e (walkArgs fs (pre ++ post) w)
                  (walkArgs fs (pre ++ bad :: post) w))
  ∧ (∀ dir pre name node post e w,
       failing (filepathJoin dir name) node e →
       same_but e (getLicenses dir (Directory (pre ++ post)) w)
                  (getLicenses dir (Directory (pre ++ (name, node) :: post)) w))
  ∧ (∀ fs bad e w,
       failing bad (fs bad) e → main fs [bad] w = Returned 0 w [e])
  ∧ (∀ path node w,
       failed node = false →
       same_but_for (failures path node)
                    (getLicenses path (prune node) w)
                    (getLicenses path node w))
  ∧ (∀ fs args w,
       same_but_for (arg_failures fs args)
                    (walkArgs (prune ∘ fs) (walkable fs args) w)
                    (walkArgs fs args w))
  ∧ (∀ fs args w,
       args ≠ [] →
       match walkArgs (prune ∘ fs) (walkable fs args) w with
       | Returned licenses w' out =>
           ∃ out2 out',
             main fs args w = Returned 0 w' (out2 ++ out')
             ∧ interleaved out (arg_failures fs args) out2
             ∧ requests out' = []
             ∧ stdout_text out' = report licenses
       | Panicked out =>
           ∃ d out2,
             main fs args w = Panicked out2
             ∧ d `prefix_of` arg_failures fs args
             ∧ interleaved out d out2
       end).
Proof.
  split_and!.
  - reflexivity.
  - intros; split; reflexivity.
  - apply walkArgs_skip.
  - apply getLicenses_skip.
  - apply main_failing_alone.
  - intros path node w. apply getLicenses_pruned.
  - apply walkArgs_pruned.
  - intros fs args w Hargs. pose proof (walkArgs_pruned fs args w) as Hw.
    destruct args as [|a args]; [done|]. unfold main. unfold bind at 1 3.
    unfold same_but_for in Hw.
    destruct (walkArgs (prune ∘ fs) (walkable fs (a :: args)) w)
      as [l1 w1 t1|t1],
      (walkArgs fs (a :: args) w) as [l2 w2 t2|t2]; try done.
    + destruct Hw as (Hv & <- & Hi).
      destruct (prettyPrintLicenses_report_aux l2 w1)
        as (out' & Hp & Hr & Ht).
      unfold bind, ret. rewrite Hp. exists t2, out'.
      rewrite app_nil_r. split_and!; [done..|].
      rewrite Ht. by apply report_view.
    + destruct Hw as (d & Hd & Hi). by exists d, t2.
Qed.

End WalkerFailures.

Section WalkerFailuresWitness.
Import Run WalkSpec ScanSpec Demo.

(** A run on a directory whose sub-directory holds a failing entry: the line
    for the entry is printed, the files beside it and above it are scanned,
    and the run ends with status 0. *)
Lemma walker_failure_is_local_witness :
  same_but_for
    [statDiag "top/sub/bad" "lstat top/sub/bad: permission denied"]
    (getLicenses "top" (prune nested) 0) (getLicenses "top" nested 0)
  ∧ ∃ out,
      main (fun _ => nested) ["top"] 0
      = Returned 0 2
          (statDiag "top/sub/bad" "lstat top/sub/bad: permission denied"
           :: HttpDo (mkRequest "GET" "https://api.github.com/repos/foo/bar"
                                None)
           :: HttpDo (mkRequest "GET"
                        "https://api.github.com/repos/octocat/Hello-World"
                        None)
           :: out)
      ∧ stdout_text out
        = report (Some {[ mit := Some ["github.com/foo/bar";
                                       "github.com/octocat/Hello-World"] ]}).
Proof.
  split.
  - exact (proj1 (proj2 (proj2 (proj2 (proj2 (proj2
             (@walker_failure_is_local env))))))
             "top" nested 0 eq_refl).
  - eexists. split; reflexivity.
Defined.

End WalkerFailuresWitness.

Section HeapRefinement.
Context (spare : nat → nat).

Lemma to_slice_preserved h h' s :
  Heap.slice_ok h s → Heap.arrays h ⊆ Heap.arrays h' →
  Heap.slice_ok h' s ∧ Heap.to_slice h' s = Heap.to_slice h s.
Proof.
  intros Hok Hsub. destruct s as [|a n]; [done|].
  destruct Hok as (cs & Hcs & Hn).
  pose proof (lookup_weaken _ _ _ _ Hcs Hsub) as Hcs'. split.
  - by exists cs.
  - simpl. unfold Heap.cells. by rewrite Hcs, Hcs'.
Qed.

(** [append] on the store is [append] by value. *)
Lemma append_refines h s x :
  Heap.slice_ok h s →
  Heap.slice_ok (Heap.append spare s x h).2 (Heap.append spare s x h).1
  ∧ Heap.to_slice (Heap.append spare s x h).2 (Heap.append spare s x h).1
    = append (Heap.to_slice h s) x.
Proof.
  intros Hok.
  assert (length (Heap.contents h s) = Heap.len s →
    Heap.slice_ok
      (Heap.mkHeap
         (<[fresh (dom (Heap.arrays h)) :=
              Heap.contents h s ++ x :: replicate (spare (S (Heap.len s))) ""]>
            (Heap.arrays h)) (Heap.maps h))
      (Heap.Slice (fresh (dom (Heap.arrays h))) (S (Heap.len s)))
    ∧ Heap.to_slice
        (Heap.mkHeap
           (<[fresh (dom (Heap.arrays h)) :=
                Heap.contents h s ++ x :: replicate (spare (S (Heap.len s))) ""]>
              (Heap.arrays h)) (Heap.maps h))
        (Heap.Slice (fresh (dom (Heap.arrays h))) (S (Heap.len s)))
      = append (Heap.to_slice h s) x) as Hgrow.
  { intros Hlen. split; simpl.
    - eexists. rewrite lookup_insert_eq. split; [done|].
      rewrite length_app. simpl. lia.
    - unfold Heap.cells. simpl. rewrite lookup_insert_eq. simpl.
      unfold append. f_equal.
      rewrite take_app_ge by lia.
      replace (S (Heap.len s) - length (Heap.contents h s)) with 1 by lia.
      simpl. by destruct s. }
  destruct s as [|a n]; [by apply Hgrow|].
  destruct Hok as (cs & Hcs & Hn). unfold Heap.append.
  assert (Heap.cells h a = cs) as Hcells.
  { unfold Heap.cells. by rewrite Hcs. }
  rewrite Hcells. destruct (decide (n < length cs)) as [Hlt|Hge].
  - split; simpl.
    + eexists. rewrite lookup_insert_eq. split; [done|].
      rewrite length_insert. lia.
    + unfold Heap.cells. simpl. rewrite lookup_insert_eq. simpl.
      rewrite Hcs. unfold append. simpl. f_equal.
      rewrite (take_S_r _ _ x) by (by apply list_lookup_insert_eq).
      by rewrite take_insert_ge by lia.
  - apply Hgrow. simpl. rewrite Hcells. rewrite length_take. lia.
Qed.

(** Reading the cells of a slice of [h], in [h] or in any store that
    keeps the arrays of [h], gives its strings. *)
Lemma reads_seq h s :
  Heap.slice_ok h s →
  Forall2 (fun i x => ∀ h', Heap.arrays h ⊆ Heap.arrays h' →
                            Heap.load h' s i = x)
          (seq 0 (Heap.len s)) (elems (Heap.to_slice h s)).
Proof.
  intros Hok. destruct s as [|a n]; [constructor|].
  destruct Hok as (cs & Hcs & Hn). simpl. unfold Heap.cells. rewrite Hcs.
  simpl. apply Forall2_same_length_lookup_2.
  - rewrite length_seq, length_take. lia.
  - intros i j x [-> Hi]%lookup_seq Hx h' Hsub. simpl in *.
    unfold Heap.cells. rewrite (lookup_weaken _ _ _ _ Hcs Hsub). simpl.
    rewrite lookup_take_lt in Hx by done. by rewrite Hx.
Qed.

Lemma append_step_inv h st x :
  Heap.step_inv h st →
  Heap.step_inv h (Heap.append spare st.1 x st.2)
  ∧ Heap.to_slice (Heap.append spare st.1 x st.2).2
                  (Heap.append spare st.1 x st.2).1
    = append (Heap.to_slice st.2 st.1) x.
Proof.
  intros [Hb Hok]. destruct st as [s h1]. simpl in *.
  destruct (append_refines h1 s x Hok) as [Hok' Heq].
  split; [split|]; [by apply append_building | done..].
Qed.

Lemma found_refines h h' cur indices xs x :
  Forall2 (fun i x => ∀ h', Heap.arrays h ⊆ Heap.arrays h' →
                            Heap.load h' cur i = x) indices xs →
  Heap.arrays h ⊆ Heap.arrays h' →
  Heap.found h' cur indices x = Merge.found xs x.
Proof.
  intros Hreads Hsub. induction Hreads as [|i y indices xs Hi _ IH]; [done|].
  simpl. rewrite (Hi h' Hsub). by rewrite IH.
Qed.

Lemma copy_cells_refines h cur indices xs st :
  Forall2 (fun i x => ∀ h', Heap.arrays h ⊆ Heap.arrays h' →
                            Heap.load h' cur i = x) indices xs →
  Heap.step_inv h st →
  Heap.step_inv h
    (foldl (fun st i =>
              Heap.append spare st.1 (Heap.load st.2 cur i) st.2) st indices)
  ∧ Heap.to_slice
      (foldl (fun st i =>
                Heap.append spare st.1 (Heap.load st.2 cur i) st.2)
             st indices).2
      (foldl (fun st i =>
                Heap.append spare st.1 (Heap.load st.2 cur i) st.2)
             st indices).1
    = foldl append (Heap.to_slice st.2 st.1) xs.
Proof.
  intros Hreads. revert st.
  induction Hreads as [|i x indices xs Hi _ IH]; intros st Hst; [done|].
  simpl. pose proof Hst as [(_ & Hsub & _) _]. rewrite (Hi _ Hsub).
  destruct (append_step_inv h st x Hst) as [Hst' Heq].
  destruct (IH _ Hst') as [Hinv Hres]. split; [done|]. by rewrite Hres, Heq.
Qed.

Lemma new_cells_refines h cur new_indices ys st cur_indices xs :
  Forall2 (fun i x => ∀ h', Heap.arrays h ⊆ Heap.arrays h' →
                            Heap.load h' cur i = x) cur_indices xs →
  ∀ new, Forall2 (fun j y => ∀ h', Heap.arrays h ⊆ Heap.arrays h' →
                                   Heap.load h' new j = y) new_indices ys →
  Heap.step_inv h st →
  Heap.step_inv h
    (foldl (fun st j =>
              if Heap.found st.2 cur cur_indices (Heap.load st.2 new j)
              then st
              else Heap.append spare st.1 (Heap.load st.2 new j) st.2)
           st new_indices)
  ∧ Heap.to_slice
      (foldl (fun st j =>
                if Heap.found st.2 cur cur_indices (Heap.load st.2 new j)
                then st
                else Heap.append spare st.1 (Heap.load st.2 new j) st.2)
             st new_indices).2
      (foldl (fun st j =>
                if Heap.found st.2 cur cur_indices (Heap.load st.2 new j)
                then st
                else Heap.append spare st.1 (Heap.load st.2 new j) st.2)
             st new_indices).1
    = foldl (fun acc y => if Merge.found xs y then acc else append acc y)
            (Heap.to_slice st.2 st.1) ys.
Proof.
  intros Hcur new Hnew. revert st.
  induction Hnew as [|j y new_indices ys Hj _ IH]; intros st Hst; [done|].
  simpl. pose proof Hst as [(_ & Hsub & _) _]. rewrite (Hj _ Hsub).
  rewrite (found_refines h st.2 cur cur_indices xs y Hcur Hsub).
  destruct (Merge.found xs y); [by apply IH|].
  destruct (append_step_inv h st y Hst) as [Hst' Heq].
  destruct (IH _ Hst') as [Hinv Hres]. split; [done|]. by rewrite Hres, Heq.
Qed.

(** [appendUnique] on the store is [appendUnique] by value. *)
Lemma appendUnique_refines h cur new :
  Heap.slice_ok h cur → Heap.slice_ok h new →
  Heap.step_inv h (Heap.appendUnique spare cur new h)
  ∧ Heap.to_slice (Heap.appendUnique spare cur new h).2
                  (Heap.appendUnique spare cur new h).1
    = Merge.appendUnique (Heap.to_slice h cur) (Heap.to_slice h new).
Proof.
  intros Hcur Hnew. unfold Heap.appendUnique, Merge.appendUnique.
  assert (Heap.step_inv h (Heap.Nil, h)) as H0 by (by split).
  destruct (copy_cells_refines h cur _ _ (Heap.Nil, h) (reads_seq h cur Hcur)
              H0) as [H1 Heq1].
  destruct (new_cells_refines h cur _ _ _ _ _ (reads_seq h cur Hcur) new
              (reads_seq h new Hnew) H1) as [H2 Heq2].
  split; [done|]. rewrite Heq2, Heq1. done.
Qed.

(** X17. The slice [appendUnique] returns is nil or lies in an array that
    the call allocated: it shares no cell with the arguments, whose arrays,
    like every array and map of the store, are left as they were. Its
    strings are those [appendUnique] by value gives. *)
Theorem appendUnique_own_array (cur new : Heap.hslice) (h : Heap.heap) :
  Heap.slice_ok h cur → Heap.slice_ok h new →
  Heap.local_to h (Heap.appendUnique spare cur new h).1
  ∧ Heap.preserved h (Heap.appendUnique spare cur new h).2
  ∧ Heap.to_slice (Heap.appendUnique spare cur new h).2
                  (Heap.appendUnique spare cur new h).1
    = Merge.appendUnique (Heap.to_slice h cur) (Heap.to_slice h new).
Proof.
  intros Hcur Hnew.
  destruct (appendUnique_refines h cur new Hcur Hnew)
    as [[(Hloc & Hsub & Hmaps) _] Heq].
  split_and!; [done| |done]. split; [done | by rewrite Hmaps].
Qed.

Lemma heap_ok_arrays h h' :
  Heap.heap_ok h → Heap.arrays h ⊆ Heap.arrays h' →
  Heap.maps h' = Heap.maps h → Heap.heap_ok h'.
Proof.
  intros Hok Hsub Hmaps p m k s Hp Hk. rewrite Hmaps in Hp.
  by apply (to_slice_preserved h h' s (Hok p m k s Hp Hk)).
Qed.

Lemma snap_arrays h h' p :
  Heap.heap_ok h → Heap.arrays h ⊆ Heap.arrays h' →
  Heap.maps h' = Heap.maps h → Heap.snap h' p = Heap.snap h p.
Proof.
  intros Hok Hsub Hmaps. unfold Heap.snap, Heap.map_at. rewrite Hmaps.
  destruct (Heap.maps h !! p) as [m|] eqn:Hp; simpl;
    [|by rewrite !fmap_empty].
  apply map_eq; intros k. rewrite !lookup_fmap.
  destruct (m !! k) as [s|] eqn:Hk; simpl; [|done]. f_equal.
  by apply (to_slice_preserved h h' s (Hok p m k s Hp Hk)).
Qed.

Lemma map_get_ok h p k : Heap.heap_ok h → Heap.slice_ok h (Heap.map_get h p k).
Proof.
  intros Hok. unfold Heap.map_get, Heap.map_at.
  destruct (Heap.maps h !! p) as [m|] eqn:Hp; simpl;
    [|by rewrite lookup_empty].
  destruct (m !! k) as [s|] eqn:Hk; simpl; [|done]. by eapply Hok.
Qed.

Lemma to_slice_map_get h p k :
  Heap.to_slice h (Heap.map_get h p k) = at_key (Heap.snap h p) k.
Proof.
  unfold Heap.map_get, at_key, Heap.snap. rewrite lookup_fmap.
  by destruct (Heap.map_at h p !! k).
Qed.

Lemma map_set_merging h0 merged mv h key val :
  Heap.merging h0 merged mv h → Heap.slice_ok h val →
  Heap.merging h0 merged (<[key := Heap.to_slice h val]> mv)
               (Heap.map_set merged key val h).
Proof.
  intros (Hf & Hp & Hok & Hs) Hv. split_and!; [done| | |].
  - by apply map_set_preserved.
  - intros p m k s Hpm Hk. simpl in Hpm.
    assert (Heap.slice_ok h s) as Hs'; [|by destruct s].
    destruct (decide (merged = p)) as [->|Hne].
    + rewrite lookup_insert_eq in Hpm. injection Hpm as <-.
      destruct (decide (key = k)) as [->|Hnk].
      * rewrite lookup_insert_eq in Hk. by injection Hk as <-.
      * rewrite lookup_insert_ne in Hk by done.
        unfold Heap.map_at in Hk.
        destruct (Heap.maps h !! p) as [m|] eqn:Hm; simpl in Hk;
          [by eapply Hok | by rewrite lookup_empty in Hk].
    + rewrite lookup_insert_ne in Hpm by done. by eapply Hok.
  - rewrite <- Hs. unfold Heap.snap at 1, Heap.map_at at 1. simpl.
    rewrite lookup_insert_eq. simpl. by rewrite fmap_insert.
Qed.

Lemma merging_unchanged h0 merged mv h p :
  Heap.heap_ok h0 → Heap.merging h0 merged mv h →
  is_Some (Heap.maps h0 !! p) →
  Heap.map_at h p = Heap.map_at h0 p ∧ Heap.snap h p = Heap.snap h0 p.
Proof.
  intros Hok0 (Hf & [Ha Hm] & Hok & Hs) [m Hp].
  assert (Heap.map_at h p = Heap.map_at h0 p) as Heq.
  { unfold Heap.map_at. by rewrite Hp, (lookup_weaken _ _ _ _ Hp Hm). }
  split; [done|]. unfold Heap.snap. rewrite Heq.
  apply map_eq; intros k. rewrite !lookup_fmap.
  unfold Heap.map_at. rewrite Hp. simpl.
  destruct (m !! k) as [s|] eqn:Hk; simpl; [|done]. f_equal.
  by apply (to_slice_preserved h0 h s (Hok0 p m k s Hp Hk)).
Qed.

Lemma copy_loop_refines h0 merged entries mv h :
  Heap.heap_ok h0 →
  (∀ kv, kv ∈ entries → Heap.slice_ok h0 kv.2) →
  Heap.merging h0 merged mv h →
  Heap.merging h0 merged
    (foldl Merge.copy_step mv (prod_map id (Heap.to_slice h0) <$> entries))
    (foldl (fun h kv => Heap.map_set merged kv.1 kv.2 h) h entries).
Proof.
  intros Hok0. revert mv h.
  induction entries as [|[key val] entries IH]; intros mv h Hin Hm; [done|].
  simpl. apply IH; [intros kv Hkv; apply Hin; by right|].
  pose proof Hm as (_ & [Ha _] & _ & _).
  destruct (to_slice_preserved h0 h val (Hin (key, val) ltac:(left)) Ha)
    as [Hv <-].
  unfold Merge.copy_step. simpl. by apply map_set_merging.
Qed.

Lemma merge_step_refines h0 merged p2 mv h key val :
  Heap.heap_ok h0 → is_Some (Heap.maps h0 !! p2) →
  Heap.map_at h0 p2 !! key = Some val →
  Heap.merging h0 merged mv h →
  Heap.merging h0 merged
    (Merge.merge_step (Heap.snap h0 p2) mv (key, Heap.to_slice h0 val))
    (Heap.merge_step spare merged p2 h (key, val)).
Proof.
  intros Hok0 Hp2 Hval Hm.
  pose proof Hm as (Hf & [Ha Hmaps] & Hok & Hs).
  destruct (merging_unchanged h0 merged mv h p2 Hok0 Hm Hp2) as [Hat Hsn].
  assert (Heap.slice_ok h0 val) as Hv0.
  { destruct Hp2 as [m Hp]. unfold Heap.map_at in Hval. rewrite Hp in Hval.
    by eapply Hok0. }
  destruct (to_slice_preserved h0 h val Hv0 Ha) as [Hv Hveq].
  unfold Heap.merge_step, Merge.merge_step.
  rewrite <- Hs at 1. rewrite <- to_slice_map_get.
  destruct (Heap.map_get h merged key) as [|a n] eqn:Hcur; simpl.
  - rewrite <- Hveq. by apply map_set_merging.
  - pose proof (map_get_ok h merged key Hok) as Hcok. rewrite Hcur in Hcok.
    pose proof (map_get_ok h p2 key Hok) as Hnok.
    destruct (appendUnique_refines h (Heap.Slice a n)
                (Heap.map_get h p2 key) Hcok Hnok)
      as [[(Hloc & Hsub & Hmeq) Hrok] Hreq].
    assert (Heap.merging h0 merged mv
              (Heap.appendUnique spare (Heap.Slice a n)
                 (Heap.map_get h p2 key) h).2) as Hm'.
    { split_and!; [done| | |].
      - split; [by etrans | by rewrite Hmeq].
      - by apply (heap_ok_arrays h).
      - rewrite <- Hs. by apply snap_arrays. }
    rewrite <- Hs, <- to_slice_map_get, Hcur.
    rewrite <- Hsn, <- to_slice_map_get.
    change (Some (Heap.contents h (Heap.Slice a n)))
      with (Heap.to_slice h (Heap.Slice a n)).
    rewrite Hs, <- Hreq. by apply map_set_merging.
Qed.

Lemma merge_loop_refines h0 merged p2 entries mv h :
  Heap.heap_ok h0 → is_Some (Heap.maps h0 !! p2) →
  (∀ kv, kv ∈ entries → Heap.map_at h0 p2 !! kv.1 = Some kv.2) →
  Heap.merging h0 merged mv h →
  Heap.merging h0 merged
    (foldl (Merge.merge_step (Heap.snap h0 p2)) mv
           (prod_map id (Heap.to_slice h0) <$> entries))
    (foldl (Heap.merge_step spare merged p2) h entries).
Proof.
  intros Hok0 Hp2. revert mv h.
  induction entries as [|[key val] entries IH]; intros mv h Hin Hm; [done|].
  simpl. apply IH; [intros kv Hkv; apply Hin; by right|].
  apply merge_step_refines; try done. apply (Hin (key, val)). left.
Qed.

Lemma make_merging h :
  Heap.heap_ok h → Heap.merging h (Heap.make h).1 ∅ (Heap.make h).2.
Proof.
  intros Hok. destruct (make_fresh h) as [Hf Hp]. split_and!; [done..| |].
  - intros p m k s Hpm Hk. simpl in Hpm.
    assert (Heap.slice_ok h s) as Hs; [|by destruct s].
    destruct (decide (fresh (dom (Heap.maps h)) = p)) as [<-|Hne].
    + rewrite lookup_insert_eq in Hpm. injection Hpm as <-.
      by rewrite lookup_empty in Hk.
    + rewrite lookup_insert_ne in Hpm by done. by eapply Hok.
  - unfold Heap.snap, Heap.map_at. simpl. rewrite lookup_insert_eq. simpl.
    by rewrite fmap_empty.
Qed.

(** X16. [mergeMaps] on a store of shared maps and arrays returns the map
    that [mergeMaps] by value returns for the values of its arguments, and
    leaves the store in order: that maps and arrays are shared does not
    show in the result. *)
Theorem mergeMaps_refines (map1 map2 : option Heap.loc) (h : Heap.heap) :
  Heap.heap_ok h → Heap.allocated h map1 → Heap.allocated h map2 →
  Merge.mergeMaps (Heap.snap_opt h map1) (Heap.snap_opt h map2)
  = Heap.snap_opt (Heap.mergeMaps spare map1 map2 h).2
                  (Heap.mergeMaps spare map1 map2 h).1
  ∧ Heap.heap_ok (Heap.mergeMaps spare map1 map2 h).2.
Proof.
  intros Hok H1 H2. pose proof (make_merging h Hok) as Hmk.
  destruct map1 as [p1|], map2 as [p2|]; simpl in *; try done.
  - destruct (merging_unchanged _ _ _ _ p1 Hok Hmk H1) as [Hat1 _].
    rewrite Hat1.
    assert (∀ kv, kv ∈ map_to_list (Heap.map_at h p1) →
                  Heap.slice_ok h kv.2) as Hin1.
    { intros [k s] Hkv%elem_of_map_to_list. destruct H1 as [m Hp].
      unfold Heap.map_at in Hkv. rewrite Hp in Hkv. by eapply Hok. }
    pose proof (copy_loop_refines h _ _ _ _ Hok Hin1 Hmk) as Hc.
    destruct (merging_unchanged _ _ _ _ p2 Hok Hc H2) as [Hat2 _].
    rewrite Hat2.
    assert (∀ kv, kv ∈ map_to_list (Heap.map_at h p2) →
                  Heap.map_at h p2 !! kv.1 = Some kv.2) as Hin2.
    { by intros [k s] Hkv%elem_of_map_to_list. }
    pose proof (merge_loop_refines h _ p2 _ _ _ Hok H2 Hin2 Hc)
      as (_ & _ & Hok' & Hsnap).
    split; [|done]. f_equal. rewrite Hsnap.
    symmetry. apply (merge_loops_order (Heap.snap h p1) (Heap.snap h p2)).
    + unfold Heap.snap. by rewrite map_to_list_fmap.
    + unfold Heap.snap. by rewrite map_to_list_fmap.
  - destruct Hmk as (_ & _ & Hok' & Hs). split; [|done]. f_equal.
    by rewrite Hs.
Qed.

End HeapRefinement.

Lemma appendUnique_own_array_witness :
  Heap.slice_ok Heap.sample (Heap.Slice 1 1)
  ∧ Heap.local_to Heap.sample
      (Heap.appendUnique Heap.doubling (Heap.Slice 1 1) (Heap.Slice 1 1)
                         Heap.sample).1
  ∧ Heap.to_slice
      (Heap.appendUnique Heap.doubling (Heap.Slice 1 1) (Heap.Slice 1 1)
                         Heap.sample).2
      (Heap.appendUnique Heap.doubling (Heap.Slice 1 1) (Heap.Slice 1 1)
                         Heap.sample).1
    = Some ["github.com/foo/bar"].
Proof.
  assert (Heap.slice_ok Heap.sample (Heap.Slice 1 1)) as Hok.
  { exists ["github.com/foo/bar"]. split; [reflexivity | simpl; lia]. }
  split; [exact Hok|].
  pose proof (appendUnique_own_array Heap.doubling (Heap.Slice 1 1)
                (Heap.Slice 1 1) Heap.sample Hok Hok) as (Hloc & _ & Heq).
  split; [exact Hloc | exact Heq].
Defined.

Lemma mergeMaps_refines_witness :
  Heap.heap_ok Heap.sample
  ∧ Heap.allocated Heap.sample (Some 1%positive)
  ∧ Merge.mergeMaps (Heap.snap_opt Heap.sample (Some 1%positive))
                    (Heap.snap_opt Heap.sample (Some 1%positive))
    = Heap.snap_opt
        (Heap.mergeMaps Heap.doubling (Some 1%positive) (Some 1%positive)
                        Heap.sample).2
        (Heap.mergeMaps Heap.doubling (Some 1%positive) (Some 1%positive)
                        Heap.sample).1.
Proof.
  assert (Heap.heap_ok Heap.sample) as Hok.
  { intros p m k s Hp Hk. unfold Heap.sample in Hp. simpl in Hp.
    apply lookup_singleton_Some in Hp as [<- <-].
    apply lookup_singleton_Some in Hk as [<- <-].
    exists ["github.com/foo/bar"]. split; [reflexivity | simpl; lia]. }
  assert (Heap.allocated Heap.sample (Some 1%positive)) as Hal.
  { by eexists. }
  split; [exact Hok|]. split; [exact Hal|].
  exact (proj1 (mergeMaps_refines Heap.doubling (Some 1%positive)
                  (Some 1%positive) Heap.sample Hok Hal Hal)).
Defined.
